(** * ABI coder dispatcher ([packages/abi/src.ts/abi-coder.ts])

    A shallow embedding of [AbiCoder]: the resolution of a type descriptor
    ([ParamType]) to a [Coder], and the two entry points [encode] and
    [decode]. *)

From Stdlib Require Import ZArith List String Ascii Bool Lia DecimalString.
From Stdlib.Strings Require Import Byte.
Import ListNotations.

Set Warnings "-register-all".

Local Open Scope Z_scope.
Local Open Scope list_scope.

(** ** Type descriptors

    [ParamType] as imported from [./fragments]: the fields [_getCoder] reads.
    [arrayChildren] and [components] are [null] where they do not apply;
    [arrayLength] is [-1] for [T[]] and is read for arrays only. *)

Inductive ParamType : Type := mkParamType {
  name : string;
  type : string;
  baseType : string;
  arrayLength : Z;
  arrayChildren : option ParamType;
  components : option (list ParamType)
}.

(** ** Errors

    [errors.throwError(message, code, params)] raises: [INVALID_ARGUMENT] is
    the code [_getCoder] and [encode] raise, kept with its message and its
    params. [TypeError] is what JavaScript raises for a property of [null].
    The three other conditions are the ones the coders, the Writer and the
    Reader raise. *)

Inductive ErrorParams : Type :=
  | ArgParam (arg : string) (value : ParamType)
  | ArgType (arg : string) (value : string)
  | CountMismatch (types values : nat)
  | NoParams.

Inductive Error : Type :=
  | INVALID_ARGUMENT (message : string) (params : ErrorParams)
  | TypeError
  | NUMERIC_RANGE
  | BUFFER_OVERRUN
  | INTERNAL_INVARIANT.

Inductive result (A : Type) : Type :=
  | Ok (a : A)
  | Err (e : Error).

Arguments Ok {A} a.
Arguments Err {A} e.

Definition bind {A B : Type} (c : result A) (k : A -> result B) : result B :=
  match c with
  | Ok a => k a
  | Err e => Err e
  end.

Declare Scope result_scope.
Delimit Scope result_scope with result.
Notation "x <- c ;; k" := (bind c (fun x => k))
  (at level 61, c at next level, right associativity) : result_scope.
Local Open Scope result_scope.

(** [arr.map(f)] where [f] may throw: the first failure, in order, wins. *)
Section MapM.
Context {A B : Type} (f : A -> result B).

Fixpoint mapM (l : list A) : result (list B) :=
  match l with
  | [] => Ok []
  | a :: l' => b <- f a ;; bs <- mapM l' ;; Ok (b :: bs)
  end.
End MapM.

(** ** JavaScript numbers and [parseInt]

    [parseInt] is applied to captures of [[0-9]*] only: it reads the leading
    decimal digits, and yields [NaN] when there is none. A capture is read in
    base ten, leading zeros included. The double that JavaScript returns is
    the integer itself up to 2^53, and beyond that a double of at least
    2^53 or [Infinity], so the comparisons of [_getCoder] with 0, 32 and 256
    and the remainder by 8 of a number that passed them agree with the ones
    on [Z]. *)

Inductive jsnum : Type :=
  | JNaN
  | JNum (z : Z).

Definition is_digit (c : ascii) : bool :=
  (48 <=? nat_of_ascii c)%nat && (nat_of_ascii c <=? 57)%nat.

Definition digit_value (c : ascii) : Z := Z.of_nat (nat_of_ascii c) - 48.

Fixpoint all_digits (s : string) : bool :=
  match s with
  | EmptyString => true
  | String c s' => is_digit c && all_digits s'
  end.

Fixpoint parseInt_from (acc : jsnum) (s : string) : jsnum :=
  match s with
  | EmptyString => acc
  | String c s' =>
      if is_digit c
      then parseInt_from
             (JNum (10 * match acc with JNaN => 0 | JNum z => z end + digit_value c)) s'
      else acc
  end.

Definition parseInt (s : string) : jsnum := parseInt_from JNaN s.

(** [size === k], [size > k], [size % k !== 0] and [size / k]; every
    comparison with [NaN] is false and [NaN % k] is [NaN]. [_getCoder]
    divides by 8 a multiple of 8 only, where the quotient is exact. *)
Definition js_eq (n : jsnum) (k : Z) : bool :=
  match n with JNaN => false | JNum z => z =? k end.

Definition js_gt (n : jsnum) (k : Z) : bool :=
  match n with JNaN => false | JNum z => k <? z end.

Definition js_mod_ne0 (n : jsnum) (k : Z) : bool :=
  match n with JNaN => true | JNum z => negb (Z.rem z k =? 0) end.

Definition js_div (n : jsnum) (k : Z) : jsnum :=
  match n with JNaN => JNaN | JNum z => JNum (z / k) end.

(** ** The two regular expressions *)

Fixpoint strip_prefix (p s : string) : option string :=
  match p with
  | EmptyString => Some s
  | String a p' =>
      match s with
      | EmptyString => None
      | String b s' => if Ascii.eqb a b then strip_prefix p' s' else None
      end
  end.

(** [paramTypeBytes], the expression [bytes] then any number of digits,
    anchored at both ends: the capture, when the match succeeds. *)
Definition paramTypeBytes (s : string) : option string :=
  match strip_prefix "bytes" s with
  | Some d => if all_digits d then Some d else None
  | None => None
  end.

(** [paramTypeNumber], the expression [uint] or [int] then any number of
    digits, anchored at both ends: the two captures. *)
Definition paramTypeNumber (s : string) : option (string * string) :=
  match strip_prefix "uint" s with
  | Some d => if all_digits d then Some ("uint"%string, d) else None
  | None =>
      match strip_prefix "int" s with
      | Some d => if all_digits d then Some ("int"%string, d) else None
      | None => None
      end
  end.

(** ** Coders

    One constructor per class imported from [./coders/*], with the arguments
    [_getCoder] passes to [new]. *)

Inductive Coder : Type :=
  | AddressCoder (localName : string)
  | BooleanCoder (localName : string)
  | StringCoder (localName : string)
  | BytesCoder (localName : string)
  | ArrayCoder (coder : Coder) (length : Z) (localName : string)
  | TupleCoder (coders : list Coder) (localName : string)
  | NullCoder (localName : string)
  | NumberCoder (size : jsnum) (signed : bool) (localName : string)
  | FixedBytesCoder (size : jsnum) (localName : string).

(** [match[2] || "256"]: the empty string is the only falsy capture. *)
Definition or_default (s d : string) : string :=
  match s with
  | EmptyString => d
  | _ => s
  end.

(** ** [AbiCoder._getCoder] *)

Fixpoint _getCoder (param : ParamType) : result Coder :=
  match param with
  | mkParamType pname ptype pbase plen pchildren pcomponents =>
      if String.eqb pbase "address" then Ok (AddressCoder pname)
      else if String.eqb pbase "bool" then Ok (BooleanCoder pname)
      else if String.eqb pbase "string" then Ok (StringCoder pname)
      else if String.eqb pbase "bytes" then Ok (BytesCoder pname)
      else if String.eqb pbase "array" then
        match pchildren with
        | None => Err TypeError
        | Some child =>
            c <- _getCoder child ;; Ok (ArrayCoder c plen pname)
        end
      else if String.eqb pbase "tuple" then
        match pcomponents with
        | None => Ok (TupleCoder [] pname)
        | Some comps =>
            cs <- mapM _getCoder comps ;;
            Ok (TupleCoder cs pname)
        end
      else if String.eqb pbase "" then Ok (NullCoder pname)
      else
        match paramTypeNumber ptype with
        | Some (m1, m2) =>
            let size := parseInt (or_default m2 "256") in
            if js_eq size 0 || js_gt size 256 || js_mod_ne0 size 8
            then Err (INVALID_ARGUMENT ("invalid " ++ m1 ++ " bit length")%string
                                       (ArgParam "param" param))
            else Ok (NumberCoder (js_div size 8) (String.eqb m1 "int") pname)
        | None =>
            match paramTypeBytes ptype with
            | Some m1 =>
                let size := parseInt m1 in
                if js_eq size 0 || js_gt size 32
                then Err (INVALID_ARGUMENT "invalid bytes length"
                                           (ArgParam "param" param))
                else Ok (FixedBytesCoder size pname)
            | None => Err (INVALID_ARGUMENT "invalid type" (ArgType "type" ptype))
            end
        end
  end.

(** ** Bytes and words *)

Definition byte_of_Z (z : Z) : byte :=
  match Byte.of_N (Z.to_N (z mod 256)) with
  | Some b => b
  | None => x00
  end.

Definition Z_of_byte (b : byte) : Z := Z.of_N (Byte.to_N b).

(** The [n] low-order bytes of [z], most significant first; a negative [z]
    is written in two's complement. *)
Fixpoint be_bytes (n : nat) (z : Z) : list byte :=
  match n with
  | O => []
  | S n' => be_bytes n' (z / 256) ++ [byte_of_Z z]
  end.

(** The non-negative integer a byte sequence spells, most significant first. *)
Definition be_value (bs : list byte) : Z :=
  fold_left (fun acc b => acc * 256 + Z_of_byte b) bs 0.

Definition zeros (n : nat) : list byte := repeat x00 n.

Definition all_zero (bs : list byte) : bool :=
  forallb (fun b => Byte.eqb b x00) bs.

(** [ceil(n / a) * a]. *)
Definition round_up (n a : nat) : nat := ((n + a - 1) / a * a)%nat.

(** The bytes, then zeros up to the next multiple of the alignment. *)
Definition padded (bs : list byte) (alignment : nat) : list byte :=
  bs ++ zeros (round_up (List.length bs) alignment - List.length bs).

(** ** Values

    Modelled from the spec: what a caller passes to [encode] and gets from [decode]: an address is
    its 20 bytes, an integer has arbitrary precision, a string is the
    sequence of its UTF-8 bytes, an array and a tuple are both a sequence
    (a decoded tuple is read by position, its access by name is left out),
    and [VNull] is JavaScript's [null]. *)

Inductive Value : Type :=
  | VAddress (a : list byte)
  | VBool (b : bool)
  | VNumber (z : Z)
  | VString (s : string)
  | VBytes (bs : list byte)
  | VList (vs : list Value)
  | VNull.

(** [CoerceFunc = (type: string, value: any) => any]. *)
Definition CoerceFunc : Type := string -> Value -> Value.

(** ** Writer *)

(** Modelled from the spec: the Writer of [./coders/abstract-coder], an
    ordered sequence of byte segments; [None] is a placeholder word that was
    reserved and is not filled yet. *)
Record Writer : Type := mkWriter {
  writer_wordSize : nat;
  segments : list (option (list byte))
}.

(** Modelled from the spec: [new Writer(wordSize)], with no segment. *)
Definition Writer_new (wordSize : nat) : Writer := mkWriter wordSize [].

Definition segment_length (wordSize : nat) (s : option (list byte)) : nat :=
  match s with
  | Some bs => List.length bs
  | None => wordSize
  end.

(** Modelled from the spec: the running byte length of a Writer. *)
Definition Writer_length (w : Writer) : nat :=
  list_sum (map (segment_length (writer_wordSize w)) (segments w)).

Definition appendSegment (w : Writer) (s : option (list byte)) : Writer :=
  mkWriter (writer_wordSize w) (segments w ++ [s]).

(** Modelled from the spec: a number as one big-endian word. *)
Definition Writer_word (w : Writer) (z : Z) : list byte :=
  be_bytes (writer_wordSize w) z.

(** Modelled from the spec: [appendWord(bytes32)] of the Writer. *)
Definition appendWord (w : Writer) (word : list byte) : Writer :=
  appendSegment w (Some word).

(** Modelled from the spec: [appendPadded(bytes, alignment)] of the Writer,
    the raw bytes then zeros up to the next multiple of the alignment. *)
Definition appendPadded (w : Writer) (bs : list byte) (alignment : nat) : Writer :=
  appendSegment w (Some (padded bs alignment)).

(** Modelled from the spec: [reservePlaceholder() -> handle] of the Writer;
    the handle is the index of the reserved segment. *)
Definition reservePlaceholder (w : Writer) : Writer * nat :=
  (appendSegment w None, List.length (segments w)).

Fixpoint fill_segment (segs : list (option (list byte))) (handle : nat)
    (word : list byte) : result (list (option (list byte))) :=
  match segs, handle with
  | None :: rest, O => Ok (Some word :: rest)
  | s :: rest, S handle' =>
      rest' <- fill_segment rest handle' word ;; Ok (s :: rest')
  | _, _ => Err INTERNAL_INVARIANT
  end.

(** Modelled from the spec: [fill(handle, word)] of the Writer; a handle that
    names no unfilled placeholder is an internal invariant violation. *)
Definition fill (w : Writer) (handle : nat) (word : list byte) : result Writer :=
  segs <- fill_segment (segments w) handle word ;;
  Ok (mkWriter (writer_wordSize w) segs).

Fixpoint finalize_segments (segs : list (option (list byte))) : result (list byte) :=
  match segs with
  | [] => Ok []
  | Some bs :: rest => tl <- finalize_segments rest ;; Ok (bs ++ tl)
  | None :: _ => Err INTERNAL_INVARIANT
  end.

(** Modelled from the spec: [finalize() -> bytes] of the Writer, all segments
    in append order; it fails when a placeholder was left unfilled. *)
Definition finalize (w : Writer) : result (list byte) :=
  finalize_segments (segments w).

(** Modelled from the spec: [appendChild(writer) -> byteOffset] of the Writer,
    the bytes of a fully built child and the offset at which they start. *)
Definition appendChild (w child : Writer) : result (Writer * nat) :=
  bs <- finalize child ;;
  Ok (appendSegment w (Some bs), Writer_length w).

(** ** Reader *)

(** Modelled from the spec: the Reader of [./coders/abstract-coder], a view of
    the buffer from the reader's base, a cursor, and the coercion hook. A
    sub-reader is a view of the same buffer from a later base. *)
Record Reader : Type := mkReader {
  data : list byte;
  offset : nat;
  reader_wordSize : nat;
  reader_coerceFunc : option CoerceFunc
}.

(** Modelled from the spec: [new Reader(data, wordSize, coerceFunc)]. *)
Definition Reader_new (d : list byte) (wordSize : nat)
    (coerceFunc : option CoerceFunc) : Reader :=
  mkReader d 0 wordSize coerceFunc.

Definition advance (r : Reader) (n : nat) : Reader :=
  mkReader (data r) (offset r + n) (reader_wordSize r) (reader_coerceFunc r).

(** Modelled from the spec: [readBytes(n) -> bytes] of the Reader, which
    returns [n] bytes and moves the cursor to the next word boundary; a read
    past the end of the buffer is a buffer overrun. *)
Definition readBytes (r : Reader) (n : Z) : result (list byte * Reader) :=
  if (n <=? Z.of_nat (List.length (data r)))
     && (offset r + round_up (Z.to_nat n) (reader_wordSize r) <=? List.length (data r))%nat
  then Ok (firstn (Z.to_nat n) (skipn (offset r) (data r)),
           advance r (round_up (Z.to_nat n) (reader_wordSize r)))
  else Err BUFFER_OVERRUN.

(** Modelled from the spec: [readWord() -> bytes32] of the Reader. *)
Definition readWord (r : Reader) : result (list byte * Reader) :=
  if (offset r + reader_wordSize r <=? List.length (data r))%nat
  then Ok (firstn (reader_wordSize r) (skipn (offset r) (data r)),
           advance r (reader_wordSize r))
  else Err BUFFER_OVERRUN.

(** Modelled from the spec: [subReaderAt(byteOffset) -> Reader], a cursor of
    its own at an offset counted from the reader's base; an offset outside
    the buffer is a buffer overrun. *)
Definition subReaderAt (r : Reader) (byteOffset : Z) : result Reader :=
  if (0 <=? byteOffset) && (byteOffset <=? Z.of_nat (List.length (data r)))
  then Ok (mkReader (skipn (Z.to_nat byteOffset) (data r)) 0
                    (reader_wordSize r) (reader_coerceFunc r))
  else Err BUFFER_OVERRUN.

(** Modelled from the spec: [coerce(typeName, rawValue) -> value] of the
    Reader; without a hook the raw value passes through. *)
Definition coerce (r : Reader) (typeName : string) (v : Value) : Value :=
  match reader_coerceFunc r with
  | Some f => f typeName v
  | None => v
  end.

(** ** Static and dynamic coders *)

(** Modelled from the spec: the [dynamic] attribute of the coders of
    [./coders/*]; it depends on the shape of the type only. *)
Fixpoint dynamic (c : Coder) : bool :=
  match c with
  | StringCoder _ | BytesCoder _ => true
  | ArrayCoder c' len _ => (len =? -1) || dynamic c'
  | TupleCoder cs _ => existsb dynamic cs
  | AddressCoder _ | BooleanCoder _ | NullCoder _
  | NumberCoder _ _ _ | FixedBytesCoder _ _ => false
  end.

Definition decimal (z : Z) : string :=
  NilZero.string_of_uint (N.to_uint (Z.to_N z)).

Definition jsnum_string (n : jsnum) : string :=
  match n with
  | JNaN => "NaN"
  | JNum z => decimal z
  end.

(** Modelled from the spec: the display name of the type a coder of
    [./coders/*] was resolved for, the name the coercion hook is passed. *)
Definition Coder_typeName (c : Coder) : string :=
  match c with
  | AddressCoder _ => "address"
  | BooleanCoder _ => "bool"
  | StringCoder _ => "string"
  | BytesCoder _ => "bytes"
  | ArrayCoder _ _ _ => "array"
  | TupleCoder _ _ => "tuple"
  | NullCoder _ => "null"
  | NumberCoder size signed _ =>
      ((if signed then "int" else "uint")
       ++ jsnum_string match size with JNaN => JNaN | JNum z => JNum (8 * z) end)%string
  | FixedBytesCoder size _ => ("bytes" ++ jsnum_string size)%string
  end.

(** ** The head/tail algorithm *)

Section ZipWith.
Context {A B C : Type} (f : A -> B -> C).

Fixpoint zipWith (l : list A) (l' : list B) : list C :=
  match l, l' with
  | a :: t, b :: t' => f a b :: zipWith t t'
  | _, _ => []
  end.
End ZipWith.

(** A member of a composite while it is encoded: whether its coder is
    dynamic, and its encoding into a Writer. *)
Definition EncMember : Type := bool * (Writer -> result Writer).

(** The head Writer, the tail Writer, and the offsets still to be filled in:
    the handle of a placeholder with the start of the member's tail content
    in the tail Writer. *)
Definition PackState : Type := Writer * Writer * list (nat * nat).

(** Modelled from the spec: one member of the walk of the head/tail algorithm
    of [./coders/array] and [./coders/tuple]: a static member is written into
    the head, a dynamic one into the tail, with a placeholder in the head. *)
Definition pack_member (st : PackState) (m : EncMember) : result PackState :=
  let '(staticWriter, dynamicWriter, patches) := st in
  if fst m then
    let dynamicOffset := Writer_length dynamicWriter in
    dynamicWriter' <- snd m dynamicWriter ;;
    let '(staticWriter', handle) := reservePlaceholder staticWriter in
    Ok (staticWriter', dynamicWriter', patches ++ [(handle, dynamicOffset)])
  else
    staticWriter' <- snd m staticWriter ;;
    Ok (staticWriter', dynamicWriter, patches).

Fixpoint pack_members (st : PackState) (ms : list EncMember) : result PackState :=
  match ms with
  | [] => Ok st
  | m :: ms' => st' <- pack_member st m ;; pack_members st' ms'
  end.

(** Modelled from the spec: the offsets of the head/tail algorithm, filled
    in once the head is complete. Each placeholder gets the distance from the start of the composite to
    the start of its tail content: the length of the head plus the start in
    the tail. *)
Fixpoint fill_offsets (w : Writer) (patches : list (nat * nat)) (baseOffset : nat)
    : result Writer :=
  match patches with
  | [] => Ok w
  | (handle, dynamicOffset) :: ps =>
      w' <- fill w handle (Writer_word w (Z.of_nat (baseOffset + dynamicOffset))) ;;
      fill_offsets w' ps baseOffset
  end.

(** Modelled from the spec: the head/tail algorithm of [./coders/array] and
    [./coders/tuple], encoding: the head, then the tail, appended to [w]. *)
Definition pack (w : Writer) (ms : list EncMember) : result Writer :=
  st <- pack_members (Writer_new (writer_wordSize w),
                      Writer_new (writer_wordSize w), []) ms ;;
  let '(staticWriter, dynamicWriter, patches) := st in
  head <- fill_offsets staticWriter patches (Writer_length staticWriter) ;;
  r1 <- appendChild w head ;;
  r2 <- appendChild (fst r1) dynamicWriter ;;
  Ok (fst r2).

(** A member of a composite while it is decoded. *)
Definition DecMember : Type := bool * (Reader -> result (Value * Reader)).

(** Modelled from the spec: a member whose decoding yields no value, as the
    empty type does, adds nothing to the decoded sequence. *)
Definition keep_value (v : Value) (vs : list Value) : list Value :=
  match v with
  | VNull => vs
  | _ => v :: vs
  end.

(** Modelled from the spec: the walk of the head/tail algorithm, decoding: a
    static member is read at the cursor, a dynamic one through a sub-reader
    at the offset its head slot holds, counted from the composite's start. *)
Fixpoint unpack_members (baseReader : Reader) (ms : list DecMember) (r : Reader)
    : result (list Value * Reader) :=
  match ms with
  | [] => Ok ([], r)
  | m :: ms' =>
      if fst m then
        wr <- readWord r ;;
        offsetReader <- subReaderAt baseReader (be_value (fst wr)) ;;
        vr <- snd m offsetReader ;;
        rest <- unpack_members baseReader ms' (snd wr) ;;
        Ok (keep_value (fst vr) (fst rest), snd rest)
      else
        vr <- snd m r ;;
        rest <- unpack_members baseReader ms' (snd vr) ;;
        Ok (keep_value (fst vr) (fst rest), snd rest)
  end.

(** Modelled from the spec: the head/tail algorithm of [./coders/array] and
    [./coders/tuple], decoding, from the composite's own start. *)
Definition unpack (ms : list DecMember) (r : Reader) : result (list Value * Reader) :=
  baseReader <- subReaderAt r (Z.of_nat (offset r)) ;;
  unpack_members baseReader ms r.

(** ** Encoding and decoding one value *)

Definition invalid_value (message : string) : Error :=
  INVALID_ARGUMENT message NoParams.

(** Modelled from the spec: the range of a fixed-width integer of [size]
    bytes, which the integer coder of [./coders/number] validates. *)
Definition in_range (size : Z) (signed : bool) (z : Z) : bool :=
  if signed
  then (- 2 ^ (8 * size - 1) <=? z) && (z <? 2 ^ (8 * size - 1))
  else (0 <=? z) && (z <? 2 ^ (8 * size)).

(** Modelled from the spec: [encode(writer, value)] of the coders of
    [./coders/*]. A value of another shape than its type, or of another
    length than a fixed length, is an invalid argument. *)
Fixpoint Coder_encode (c : Coder) (w : Writer) (v : Value) {struct c} : result Writer :=
  match c with
  | AddressCoder _ =>
      match v with
      | VAddress a =>
          if (List.length a =? 20)%nat
          then Ok (appendWord w (zeros (writer_wordSize w - 20) ++ a))
          else Err (invalid_value "invalid address")
      | _ => Err (invalid_value "invalid address")
      end
  | BooleanCoder _ =>
      match v with
      | VBool b => Ok (appendWord w (Writer_word w (if b then 1 else 0)))
      | _ => Err (invalid_value "invalid boolean")
      end
  | NumberCoder size signed _ =>
      match v, size with
      | VNumber z, JNum sz =>
          if in_range sz signed z
          then Ok (appendWord w (Writer_word w z))
          else Err NUMERIC_RANGE
      | _, _ => Err (invalid_value "invalid number")
      end
  | FixedBytesCoder size _ =>
      match v with
      | VBytes bs =>
          if js_eq size (Z.of_nat (List.length bs))
          then Ok (appendPadded w bs (writer_wordSize w))
          else Err (invalid_value "incorrect data length")
      | _ => Err (invalid_value "invalid bytes")
      end
  | NullCoder _ =>
      match v with
      | VNull => Ok w
      | _ => Err (invalid_value "not null")
      end
  | StringCoder _ =>
      match v with
      | VString s =>
          let bs := list_byte_of_string s in
          let w1 := appendWord w (Writer_word w (Z.of_nat (List.length bs))) in
          Ok (appendPadded w1 bs (writer_wordSize w))
      | _ => Err (invalid_value "invalid string")
      end
  | BytesCoder _ =>
      match v with
      | VBytes bs =>
          let w1 := appendWord w (Writer_word w (Z.of_nat (List.length bs))) in
          Ok (appendPadded w1 bs (writer_wordSize w))
      | _ => Err (invalid_value "invalid bytes")
      end
  | ArrayCoder c' len _ =>
      match v with
      | VList vs =>
          let ms := map (fun x => (dynamic c', fun w' => Coder_encode c' w' x)) vs in
          if len =? -1 then
            pack (appendWord w (Writer_word w (Z.of_nat (List.length vs)))) ms
          else if Z.of_nat (List.length vs) =? len then pack w ms
          else Err (invalid_value "array length mismatch")
      | _ => Err (invalid_value "expected array value")
      end
  | TupleCoder cs _ =>
      match v with
      | VList vs =>
          if (List.length cs =? List.length vs)%nat
          then pack w (zipWith (fun c' x => (dynamic c', fun w' => Coder_encode c' w' x))
                               cs vs)
          else Err (invalid_value "types/values length mismatch")
      | _ => Err (invalid_value "expected tuple value")
      end
  end.

(** Modelled from the spec: the integer a word holds for the integer coder
    of [./coders/number], of [size] bytes: the word itself when unsigned, the
    two's complement value of its low-order [size] bytes when signed. *)
Definition number_of_word (size : Z) (signed : bool) (u : Z) : Z :=
  if signed then
    let low := u mod 2 ^ (8 * size) in
    if Z.testbit low (8 * size - 1) then low - 2 ^ (8 * size) else low
  else u.

(** Modelled from the spec: [decode(reader)] of the coders of [./coders/*]:
    the address is validated strictly, any non-zero word is [true], and the
    coercion hook is applied to the leaves. The empty type reads nothing and
    yields no value, [VNull], which a composite leaves out of its result. *)
Fixpoint Coder_decode (c : Coder) (r : Reader) {struct c} : result (Value * Reader) :=
  match c with
  | AddressCoder _ =>
      wr <- readWord r ;;
      if all_zero (firstn (reader_wordSize r - 20) (fst wr))
      then Ok (coerce r (Coder_typeName c)
                 (VAddress (skipn (reader_wordSize r - 20) (fst wr))), snd wr)
      else Err (invalid_value "invalid address")
  | BooleanCoder _ =>
      wr <- readWord r ;;
      Ok (coerce r (Coder_typeName c) (VBool (negb (be_value (fst wr) =? 0))), snd wr)
  | NumberCoder size signed _ =>
      match size with
      | JNum sz =>
          wr <- readWord r ;;
          Ok (coerce r (Coder_typeName c)
                (VNumber (number_of_word sz signed (be_value (fst wr)))), snd wr)
      | JNaN => Err INTERNAL_INVARIANT
      end
  | FixedBytesCoder size _ =>
      match size with
      | JNum n =>
          wr <- readWord r ;;
          Ok (coerce r (Coder_typeName c) (VBytes (firstn (Z.to_nat n) (fst wr))), snd wr)
      | JNaN => Err INTERNAL_INVARIANT
      end
  | NullCoder _ => Ok (coerce r (Coder_typeName c) VNull, r)
  | StringCoder _ =>
      wr <- readWord r ;;
      br <- readBytes (snd wr) (be_value (fst wr)) ;;
      Ok (coerce r (Coder_typeName c) (VString (string_of_list_byte (fst br))), snd br)
  | BytesCoder _ =>
      wr <- readWord r ;;
      br <- readBytes (snd wr) (be_value (fst wr)) ;;
      Ok (coerce r (Coder_typeName c) (VBytes (fst br)), snd br)
  | ArrayCoder c' len _ =>
      if len =? -1 then
        wr <- readWord r ;;
        res <- unpack (repeat (dynamic c', Coder_decode c')
                              (Z.to_nat (be_value (fst wr)))) (snd wr) ;;
        Ok (VList (fst res), snd res)
      else if len <? 0 then Err INTERNAL_INVARIANT
      else
        res <- unpack (repeat (dynamic c', Coder_decode c') (Z.to_nat len)) r ;;
        Ok (VList (fst res), snd res)
  | TupleCoder cs _ =>
      res <- unpack (map (fun c' => (dynamic c', Coder_decode c')) cs) r ;;
      Ok (VList (fst res), snd res)
  end.

(** Modelled from the spec: the values of a type's domain: 20 bytes for an
    address, an integer of the width's range, [N] bytes for [bytesN], a
    length that a word can hold for a string, dynamic bytes and [T[]], as
    many elements as [T[k]] has, one value per component of a tuple. The
    empty type has no value in its domain: its decoding yields no value. *)
Fixpoint in_domain (c : Coder) (v : Value) {struct c} : bool :=
  match c, v with
  | AddressCoder _, VAddress a => (List.length a =? 20)%nat
  | BooleanCoder _, VBool _ => true
  | NumberCoder (JNum sz) signed _, VNumber z =>
      (1 <=? sz) && (sz <=? 32) && in_range sz signed z
  | FixedBytesCoder (JNum n) _, VBytes bs =>
      (Z.of_nat (List.length bs) =? n) && (1 <=? n) && (n <=? 32)
  | StringCoder _, VString s => Z.of_nat (List.length (list_byte_of_string s)) <? 2 ^ 256
  | BytesCoder _, VBytes bs => Z.of_nat (List.length bs) <? 2 ^ 256
  | ArrayCoder c' len _, VList vs =>
      (if len =? -1 then Z.of_nat (List.length vs) <? 2 ^ 256
       else Z.of_nat (List.length vs) =? len)
      && forallb (in_domain c') vs
  | TupleCoder cs _, VList vs =>
      (List.length cs =? List.length vs)%nat
      && forallb (fun b : bool => b) (zipWith (fun c' x => in_domain c' x) cs vs)
  | _, _ => false
  end.

(** ** [AbiCoder] *)

Record AbiCoder : Type := mkAbiCoder {
  coerceFunc : option CoerceFunc
}.

(** An element of [Array<string | ParamType>]. *)
Inductive TypeArg : Type :=
  | TypeString (spelling : string)
  | TypeParam (param : ParamType).

Section Dispatcher.
(** The parser of type spellings of [./fragments], an external
    collaborator: any function from a spelling to a descriptor or a
    failure. *)
Variable fromString : string -> result ParamType.

(** Modelled from the spec: [ParamType.from] of [./fragments]; a spelling
    goes to the parser, a descriptor is taken as it is. *)
Definition ParamType_from (t : TypeArg) : result ParamType :=
  match t with
  | TypeString s => fromString s
  | TypeParam p => Ok p
  end.

Definition _getWordSize (self : AbiCoder) : nat := 32.

Definition _getReader (self : AbiCoder) (d : list byte) : Reader :=
  Reader_new d (_getWordSize self) (coerceFunc self).

Definition _getWriter (self : AbiCoder) : Writer :=
  Writer_new (_getWordSize self).

(** [types.map((type) => this._getCoder(ParamType.from(type)))]. *)
Definition getCoders (types : list TypeArg) : result (list Coder) :=
  mapM (fun t => p <- ParamType_from t ;; _getCoder p) types.

(** [AbiCoder.encode]; [writer.data] is taken as the bytes it spells. *)
Definition encode (self : AbiCoder) (types : list TypeArg) (values : list Value)
    : result (list byte) :=
  if negb (List.length types =? List.length values)%nat
  then Err (INVALID_ARGUMENT "types/values length mismatch"
              (CountMismatch (List.length types) (List.length values)))
  else
    coders <- getCoders types ;;
    let coder := TupleCoder coders "_" in
    let writer := _getWriter self in
    writer' <- Coder_encode coder writer (VList values) ;;
    finalize writer'.

(** [AbiCoder.decode]; [arrayify(data)] is taken as the bytes themselves. *)
Definition decode (self : AbiCoder) (types : list TypeArg) (d : list byte)
    : result Value :=
  coders <- getCoders types ;;
  let coder := TupleCoder coders "_" in
  res <- Coder_decode coder (_getReader self d) ;;
  Ok (fst res).
End Dispatcher.

(** [defaultAbiCoder = new AbiCoder()]: [coerceFunc || null]. *)
Definition defaultAbiCoder : AbiCoder := mkAbiCoder None.

(** A parser that knows no spelling, for descriptors given as such. *)
Definition no_parser (s : string) : result ParamType :=
  Err (INVALID_ARGUMENT "invalid type" (ArgType "type" s)).

Definition elementary (ty : string) : ParamType :=
  mkParamType "" ty ty 0 None None.

Definition array_of (ty : string) (child : ParamType) (len : Z) : ParamType :=
  mkParamType "" ty "array" len (Some child) None.

Definition tuple_of (ty : string) (comps : list ParamType) : ParamType :=
  mkParamType "" ty "tuple" 0 None (Some comps).

(** ** Vocabulary of the statements *)

(** The base kinds that the [switch] of [_getCoder] has a case for. *)
Definition named_base_kind (b : string) : bool :=
  existsb (String.eqb b) ["address"; "bool"; "string"; "bytes"; "array"; "tuple"; ""]%string.

(** The integer a sequence of decimal digits spells, leading zeros included. *)
Fixpoint decimal_value (s : string) : Z :=
  match s with
  | EmptyString => 0
  | String c s' => digit_value c * 10 ^ Z.of_nat (String.length s') + decimal_value s'
  end.

(** The bit width a [u?int] spelling asks for: its suffix, 256 without one. *)
Definition bit_width (suffix : string) : Z :=
  match suffix with
  | EmptyString => 256
  | _ => decimal_value suffix
  end.

Fixpoint zero_digits (k : nat) : string :=
  match k with
  | O => EmptyString
  | S k' => String "0" (zero_digits k')
  end.

Definition with_components (p : ParamType) (cs : option (list ParamType)) : ParamType :=
  mkParamType (name p) (type p) (baseType p) (arrayLength p) (arrayChildren p) cs.

(** ** The bytes of an encoding, as a function

    What [Coder_encode] appends to a Writer, written without the Writer: the
    proofs about [encode] go through it. *)

(** The head of a composite whose members have the given encodings, the
    composite's head being [baseOffset] long and the tail written so far
    [tailOffset] long. *)
Fixpoint head_bytes (wordSize baseOffset tailOffset : nat) (ms : list (bool * list byte))
    : list byte :=
  match ms with
  | [] => []
  | (true, bs) :: ms' =>
      be_bytes wordSize (Z.of_nat (baseOffset + tailOffset))
      ++ head_bytes wordSize baseOffset (tailOffset + List.length bs) ms'
  | (false, bs) :: ms' => bs ++ head_bytes wordSize baseOffset tailOffset ms'
  end.

Fixpoint head_length (wordSize : nat) (ms : list (bool * list byte)) : nat :=
  match ms with
  | [] => 0
  | (true, _) :: ms' => wordSize + head_length wordSize ms'
  | (false, bs) :: ms' => List.length bs + head_length wordSize ms'
  end.

Fixpoint tail_bytes (ms : list (bool * list byte)) : list byte :=
  match ms with
  | [] => []
  | (true, bs) :: ms' => bs ++ tail_bytes ms'
  | (false, _) :: ms' => tail_bytes ms'
  end.

(** The head, then the tail. *)
Definition layout (wordSize : nat) (ms : list (bool * list byte)) : list byte :=
  head_bytes wordSize (head_length wordSize ms) 0 ms ++ tail_bytes ms.

(** The bytes a coder writes for a value into a Writer of its own. *)
Definition encoding (c : Coder) (v : Value) : result (list byte) :=
  w <- Coder_encode c (Writer_new 32) v ;; finalize w.

Definition member_bytes (m : bool * result (list byte)) : result (bool * list byte) :=
  bs <- snd m ;; Ok (fst m, bs).

Definition pack_bytes (wordSize : nat) (ms : list (bool * result (list byte)))
    : result (list byte) :=
  mbs <- mapM member_bytes ms ;;
  Ok (head_bytes wordSize (head_length wordSize mbs) 0 mbs ++ tail_bytes mbs).

Fixpoint abi_bytes (wordSize : nat) (c : Coder) (v : Value) {struct c}
    : result (list byte) :=
  match c with
  | AddressCoder _ =>
      match v with
      | VAddress a =>
          if (List.length a =? 20)%nat
          then Ok (zeros (wordSize - 20) ++ a)
          else Err (invalid_value "invalid address")
      | _ => Err (invalid_value "invalid address")
      end
  | BooleanCoder _ =>
      match v with
      | VBool b => Ok (be_bytes wordSize (if b then 1 else 0))
      | _ => Err (invalid_value "invalid boolean")
      end
  | NumberCoder size signed _ =>
      match v, size with
      | VNumber z, JNum sz =>
          if in_range sz signed z then Ok (be_bytes wordSize z) else Err NUMERIC_RANGE
      | _, _ => Err (invalid_value "invalid number")
      end
  | FixedBytesCoder size _ =>
      match v with
      | VBytes bs =>
          if js_eq size (Z.of_nat (List.length bs))
          then Ok (padded bs wordSize)
          else Err (invalid_value "incorrect data length")
      | _ => Err (invalid_value "invalid bytes")
      end
  | NullCoder _ =>
      match v with
      | VNull => Ok []
      | _ => Err (invalid_value "not null")
      end
  | StringCoder _ =>
      match v with
      | VString s =>
          let bs := list_byte_of_string s in
          Ok (be_bytes wordSize (Z.of_nat (List.length bs)) ++ padded bs wordSize)
      | _ => Err (invalid_value "invalid string")
      end
  | BytesCoder _ =>
      match v with
      | VBytes bs =>
          Ok (be_bytes wordSize (Z.of_nat (List.length bs)) ++ padded bs wordSize)
      | _ => Err (invalid_value "invalid bytes")
      end
  | ArrayCoder c' len _ =>
      match v with
      | VList vs =>
          let ms := map (fun x => (dynamic c', abi_bytes wordSize c' x)) vs in
          if len =? -1 then
            body <- pack_bytes wordSize ms ;;
            Ok (be_bytes wordSize (Z.of_nat (List.length vs)) ++ body)
          else if Z.of_nat (List.length vs) =? len then pack_bytes wordSize ms
          else Err (invalid_value "array length mismatch")
      | _ => Err (invalid_value "expected array value")
      end
  | TupleCoder cs _ =>
      match v with
      | VList vs =>
          if (List.length cs =? List.length vs)%nat
          then pack_bytes wordSize
                 (zipWith (fun c' x => (dynamic c', abi_bytes wordSize c' x)) cs vs)
          else Err (invalid_value "types/values length mismatch")
      | _ => Err (invalid_value "expected tuple value")
      end
  end.

(** A head under construction: the bytes of a static member, or the tail
    offset a placeholder waits for. *)
Definition HeadEntry : Type := (list byte + nat)%type.

Definition entry_segment (e : HeadEntry) : option (list byte) :=
  match e with
  | inl bs => Some bs
  | inr _ => None
  end.

Definition entry_bytes (wordSize baseOffset : nat) (e : HeadEntry) : list byte :=
  match e with
  | inl bs => bs
  | inr dynamicOffset => be_bytes wordSize (Z.of_nat (baseOffset + dynamicOffset))
  end.

Fixpoint entry_patches (i : nat) (es : list HeadEntry) : list (nat * nat) :=
  match es with
  | [] => []
  | inl _ :: es' => entry_patches (S i) es'
  | inr dynamicOffset :: es' => (i, dynamicOffset) :: entry_patches (S i) es'
  end.

(** A call of [Coder_encode] on [w] does what the bytes [p] say: it appends
    filled segments that spell them, or fails as they fail. *)
Definition appends (r : result Writer) (w : Writer) (p : result (list byte)) : Prop :=
  match p with
  | Ok bs =>
      exists segs,
        r = Ok (mkWriter (writer_wordSize w) (segments w ++ map Some segs))
        /\ List.concat segs = bs
  | Err e => r = Err e
  end.

(** The bytes of a sequence of words, each given as a number. *)
Definition words (zs : list Z) : list byte := flat_map (be_bytes 32) zs.

Definition encode_default (ps : list ParamType) (vs : list Value) : result (list byte) :=
  encode no_parser defaultAbiCoder (map TypeParam ps) vs.

Definition decode_default (ps : list ParamType) (d : list byte) : result Value :=
  decode no_parser defaultAbiCoder (map TypeParam ps) d.

(** ** Vocabulary of the properties of the resolution *)

(** The [localName] a coder was constructed with. *)
Definition Coder_localName (c : Coder) : string :=
  match c with
  | AddressCoder n | BooleanCoder n | StringCoder n | BytesCoder n
  | ArrayCoder _ _ n | TupleCoder _ n | NullCoder n
  | NumberCoder _ _ n | FixedBytesCoder _ n => n
  end.

(** Every integer coder of the tree has between 1 and 32 bytes, and every
    fixed-size byte-array coder a size between 1 and 32, or [NaN]. *)
Fixpoint widths_in_range (c : Coder) : bool :=
  match c with
  | NumberCoder (JNum w) _ _ => (1 <=? w) && (w <=? 32)
  | NumberCoder JNaN _ _ => false
  | FixedBytesCoder (JNum n) _ => (1 <=? n) && (n <=? 32)
  | FixedBytesCoder JNaN _ => true
  | ArrayCoder c' _ _ => widths_in_range c'
  | TupleCoder cs _ => forallb widths_in_range cs
  | AddressCoder _ | BooleanCoder _ | StringCoder _ | BytesCoder _ | NullCoder _ => true
  end.

(** The messages of the errors that [_getCoder] raises itself. *)
Definition resolution_messages : list string :=
  ["invalid uint bit length"; "invalid int bit length";
   "invalid bytes length"; "invalid type"]%string.

(** Every array that [_getCoder] reaches in the descriptor has its
    [arrayChildren]. *)
Fixpoint arrays_complete (p : ParamType) : bool :=
  match p with
  | mkParamType _ _ pbase _ pchildren pcomponents =>
      if String.eqb pbase "array" then
        match pchildren with
        | Some child => arrays_complete child
        | None => false
        end
      else if String.eqb pbase "tuple" then
        match pcomponents with
        | Some comps => forallb arrays_complete comps
        | None => true
        end
      else true
  end.

(** [param.components || []]. *)
Definition components_or_empty (p : ParamType) : list ParamType :=
  match components p with
  | Some comps => comps
  | None => []
  end.

(** A type of the list resolves: [ParamType.from], then [_getCoder]. *)
Definition resolveType (fromString : string -> result ParamType) (t : TypeArg)
    : result Coder :=
  p <- ParamType_from fromString t ;; _getCoder p.

(** ** Vocabulary of the proofs about the codec *)

Definition member_appends (ws : nat) (m : EncMember) (p : bool * result (list byte)) : Prop :=
  fst m = fst p /\ forall w, writer_wordSize w = ws -> appends (snd m w) w (snd p).

Definition aligned (bs : list byte) : Prop := Nat.divide 32 (List.length bs).

(** [dec] reads the value [v] back from its encoding [bs], wherever that
    lies in the buffer; a static member leaves the cursor after it. *)
Definition decodes (dyn : bool) (dec : Reader -> result (Value * Reader))
    (v : Value) (bs : list byte) : Prop :=
  forall r pre post,
    data r = pre ++ bs ++ post ->
    offset r = List.length pre ->
    reader_wordSize r = 32%nat ->
    reader_coerceFunc r = None ->
    exists k, dec r = Ok (v, advance r k) /\ (dyn = false -> k = List.length bs).

Inductive members_decode : list DecMember -> list Value -> list (bool * list byte) -> Prop :=
  | members_decode_nil : members_decode [] [] []
  | members_decode_cons m v bs ms vs mbs :
      v <> VNull ->
      decodes (fst m) (snd m) v bs ->
      members_decode ms vs mbs ->
      members_decode (m :: ms) (v :: vs) ((fst m, bs) :: mbs).

(** The property of a coder that the round trip is proved for. *)
Definition reads_back (c : Coder) : Prop :=
  forall v bs,
    in_domain c v = true ->
    abi_bytes 32 c v = Ok bs ->
    Z.of_nat (List.length bs) < 2 ^ 256 ->
    decodes (dynamic c) (Coder_decode c) v bs.

(** * Resolution of a type descriptor *)

Lemma parseInt_from_digits (s : string) :
  all_digits s = true ->
  forall acc,
    parseInt_from acc s =
    match s with
    | EmptyString => acc
    | _ => JNum (match acc with JNaN => 0 | JNum z => z end
                 * 10 ^ Z.of_nat (String.length s) + decimal_value s)
    end.
Proof.
  induction s as [|c s IH]; intros Hd acc; [reflexivity|].
  simpl in Hd. apply andb_true_iff in Hd as [Hc Hs].
  cbn [parseInt_from]. rewrite Hc, (IH Hs).
  destruct s as [|c' s'].
  - cbn [String.length decimal_value]. f_equal.
    change (Z.of_nat 1) with 1. change (Z.of_nat 0) with 0. lia.
  - f_equal. cbn [decimal_value]. remember (String c' s') as t.
    cbn [String.length]. rewrite Nat2Z.inj_succ, Z.pow_succ_r by lia.
    destruct acc; lia.
Qed.

Lemma parseInt_digits (s : string) :
  all_digits s = true -> s <> EmptyString -> parseInt s = JNum (decimal_value s).
Proof.
  intros Hd Hne. unfold parseInt. rewrite parseInt_from_digits by assumption.
  destruct s; [congruence|]. f_equal.
Qed.

Lemma digit_value_bounds (c : ascii) : is_digit c = true -> 0 <= digit_value c <= 9.
Proof.
  unfold is_digit, digit_value. intros H. apply andb_true_iff in H as [H1 H2].
  apply Nat.leb_le in H1, H2. lia.
Qed.

Lemma decimal_value_nonneg (s : string) : all_digits s = true -> 0 <= decimal_value s.
Proof.
  induction s as [|c s IH]; simpl; intros H; [lia|].
  apply andb_true_iff in H as [Hc Hs].
  pose proof (digit_value_bounds c Hc). specialize (IH Hs).
  assert (0 <= 10 ^ Z.of_nat (String.length s)) by (apply Z.pow_nonneg; lia).
  nia.
Qed.

Lemma decimal_value_zero_digits (k : nat) (d : string) :
  decimal_value (zero_digits k ++ d) = decimal_value d.
Proof.
  induction k as [|k IH]; [reflexivity|].
  cbn [zero_digits String.append decimal_value]. rewrite IH.
  change (digit_value "0") with 0. lia.
Qed.

Lemma all_digits_zero_digits (k : nat) (d : string) :
  all_digits (zero_digits k ++ d) = all_digits d.
Proof.
  induction k as [|k IH]; [reflexivity|].
  cbn [zero_digits String.append all_digits]. rewrite IH. reflexivity.
Qed.

(** Past the [switch], [_getCoder] depends on the spelling alone. *)
Lemma getCoder_by_spelling (p : ParamType) :
  named_base_kind (baseType p) = false ->
  _getCoder p =
  match paramTypeNumber (type p) with
  | Some (m1, m2) =>
      let size := parseInt (or_default m2 "256") in
      if js_eq size 0 || js_gt size 256 || js_mod_ne0 size 8
      then Err (INVALID_ARGUMENT ("invalid " ++ m1 ++ " bit length")%string
                                 (ArgParam "param" p))
      else Ok (NumberCoder (js_div size 8) (String.eqb m1 "int") (name p))
  | None =>
      match paramTypeBytes (type p) with
      | Some m1 =>
          let size := parseInt m1 in
          if js_eq size 0 || js_gt size 32
          then Err (INVALID_ARGUMENT "invalid bytes length" (ArgParam "param" p))
          else Ok (FixedBytesCoder size (name p))
      | None => Err (INVALID_ARGUMENT "invalid type" (ArgType "type" (type p)))
      end
  end.
Proof.
  destruct p as [pname ptype pbase plen pchildren pcomps].
  unfold named_base_kind. cbn [baseType type name existsb]. intros H.
  repeat (apply orb_false_iff in H as [?H H]).
  cbn [_getCoder].
  repeat match goal with Hk : String.eqb _ _ = false |- _ => rewrite Hk; clear Hk end.
  reflexivity.
Qed.

Lemma strip_prefix_app (p d : string) : strip_prefix p (p ++ d) = Some d.
Proof.
  induction p as [|a p IH]; [reflexivity|].
  cbn [String.append strip_prefix]. rewrite Ascii.eqb_refl. exact IH.
Qed.

Lemma strip_prefix_inv (p s d : string) : strip_prefix p s = Some d -> s = (p ++ d)%string.
Proof.
  revert s; induction p as [|a p IH]; intros s H.
  - cbn in H. injection H as ->. reflexivity.
  - destruct s as [|b s]; cbn in H; [discriminate|].
    destruct (Ascii.eqb a b) eqn:E; [|discriminate].
    apply Ascii.eqb_eq in E as ->. cbn. f_equal. apply IH, H.
Qed.

Lemma paramTypeNumber_spelling (pre d : string) :
  pre = "uint"%string \/ pre = "int"%string ->
  all_digits d = true ->
  paramTypeNumber (pre ++ d) = Some (pre, d).
Proof.
  intros [-> | ->] Hd; unfold paramTypeNumber.
  - rewrite strip_prefix_app, Hd. reflexivity.
  - cbn [strip_prefix String.append Ascii.eqb Bool.eqb]. rewrite Hd. reflexivity.
Qed.

Lemma paramTypeNumber_inv (s m1 m2 : string) :
  paramTypeNumber s = Some (m1, m2) ->
  (m1 = "uint"%string \/ m1 = "int"%string) /\ all_digits m2 = true /\ s = (m1 ++ m2)%string.
Proof.
  unfold paramTypeNumber. intros H.
  destruct (strip_prefix "uint" s) as [d|] eqn:E1.
  - destruct (all_digits d) eqn:Hd; [|discriminate]. injection H as <- <-.
    auto using strip_prefix_inv.
  - destruct (strip_prefix "int" s) as [d|] eqn:E2; [|discriminate].
    destruct (all_digits d) eqn:Hd; [|discriminate]. injection H as <- <-.
    auto using strip_prefix_inv.
Qed.

Lemma paramTypeBytes_spelling (d : string) :
  all_digits d = true ->
  paramTypeNumber ("bytes" ++ d) = None /\ paramTypeBytes ("bytes" ++ d) = Some d.
Proof.
  intros Hd. split; [reflexivity|].
  unfold paramTypeBytes. rewrite strip_prefix_app, Hd. reflexivity.
Qed.

Lemma paramTypeBytes_inv (s m1 : string) :
  paramTypeBytes s = Some m1 -> all_digits m1 = true /\ s = ("bytes" ++ m1)%string.
Proof.
  unfold paramTypeBytes. intros H.
  destruct (strip_prefix "bytes" s) as [d|] eqn:E; [|discriminate].
  destruct (all_digits d) eqn:Hd; [|discriminate]. injection H as <-.
  auto using strip_prefix_inv.
Qed.

Lemma parseInt_suffix (d : string) :
  all_digits d = true -> parseInt (or_default d "256") = JNum (bit_width d).
Proof.
  intros Hd. destruct d as [|c d]; [reflexivity|].
  cbn [or_default bit_width]. apply parseInt_digits; [assumption|discriminate].
Qed.

Lemma bit_width_nonneg (d : string) : all_digits d = true -> 0 <= bit_width d.
Proof.
  intros Hd. destruct d; [cbn; lia|]. now apply decimal_value_nonneg.
Qed.

(** The test [size === 0 || size > 256 || (size % 8) !== 0] on an integer. *)
Lemma bit_length_test (n : Z) :
  0 <= n ->
  js_eq (JNum n) 0 || js_gt (JNum n) 256 || js_mod_ne0 (JNum n) 8 = false
  <-> 0 < n <= 256 /\ n mod 8 = 0.
Proof.
  intros Hn. cbn [js_eq js_gt js_mod_ne0].
  rewrite Z.rem_mod_nonneg by lia.
  rewrite !orb_false_iff, negb_false_iff, Z.eqb_neq, Z.ltb_ge, Z.eqb_eq. lia.
Qed.

(** C3: a descriptor spelled [uint] or [int] followed by digits, of no named
    base kind, resolves to the integer coder whose width in bits is the
    suffix (256 without a suffix) when that is a positive multiple of 8 up to
    256, and otherwise fails with the invalid-argument error of the bit
    length, which names the descriptor as its parameter. *)
Theorem getCoder_integer_spelling (p : ParamType) (pre d : string) :
  named_base_kind (baseType p) = false ->
  pre = "uint"%string \/ pre = "int"%string ->
  all_digits d = true ->
  type p = (pre ++ d)%string ->
  (0 < bit_width d <= 256 /\ bit_width d mod 8 = 0 ->
   exists w, 8 * w = bit_width d /\
     _getCoder p = Ok (NumberCoder (JNum w) (String.eqb pre "int") (name p)))
  /\ (~ (0 < bit_width d <= 256 /\ bit_width d mod 8 = 0) ->
      _getCoder p = Err (INVALID_ARGUMENT ("invalid " ++ pre ++ " bit length")%string
                                          (ArgParam "param" p))).
Proof.
  intros Hk Hpre Hd Hty.
  rewrite (getCoder_by_spelling p Hk), Hty, (paramTypeNumber_spelling pre d Hpre Hd).
  cbv zeta. rewrite (parseInt_suffix d Hd).
  pose proof (bit_length_test (bit_width d) (bit_width_nonneg d Hd)) as Ht.
  destruct (js_eq (JNum (bit_width d)) 0 || js_gt (JNum (bit_width d)) 256
            || js_mod_ne0 (JNum (bit_width d)) 8) eqn:E.
  - split; [intros Hv | reflexivity].
    apply Ht in Hv. discriminate.
  - destruct Ht as [Ht _]. specialize (Ht eq_refl). split; [|tauto].
    intros _. exists (bit_width d / 8). split; [|reflexivity].
    destruct Ht as [_ Hm]. rewrite (Z.div_mod (bit_width d) 8) at 2 by lia. lia.
Qed.

Lemma getCoder_integer_spelling_witness :
  (0 < bit_width "64" <= 256 /\ bit_width "64" mod 8 = 0 ->
   exists w, 8 * w = bit_width "64" /\
     _getCoder (elementary "int64") = Ok (NumberCoder (JNum w) true ""))
  /\ (~ (0 < bit_width "64" <= 256 /\ bit_width "64" mod 8 = 0) ->
      _getCoder (elementary "int64")
      = Err (INVALID_ARGUMENT "invalid int bit length"
                              (ArgParam "param" (elementary "int64")))).
Proof.
  apply (getCoder_integer_spelling (elementary "int64") "int" "64");
    [reflexivity | right; reflexivity | reflexivity | reflexivity].
Defined.

(** C4: a descriptor spelled [bytes] followed by at least one digit, of no
    named base kind, resolves to the fixed-size byte-array coder of the
    suffix when the suffix is between 1 and 32, and otherwise fails with the
    invalid-argument error of the bytes length. *)
Theorem getCoder_fixed_bytes_spelling (p : ParamType) (d : string) :
  named_base_kind (baseType p) = false ->
  all_digits d = true ->
  d <> EmptyString ->
  type p = ("bytes" ++ d)%string ->
  (1 <= decimal_value d <= 32 ->
   _getCoder p = Ok (FixedBytesCoder (JNum (decimal_value d)) (name p)))
  /\ (~ 1 <= decimal_value d <= 32 ->
      _getCoder p = Err (INVALID_ARGUMENT "invalid bytes length" (ArgParam "param" p))).
Proof.
  intros Hk Hd Hne Hty.
  destruct (paramTypeBytes_spelling d Hd) as [Hn Hb].
  rewrite (getCoder_by_spelling p Hk), Hty, Hn, Hb.
  cbv zeta. rewrite (parseInt_digits d Hd Hne).
  pose proof (decimal_value_nonneg d Hd) as H0.
  cbn [js_eq js_gt].
  destruct (decimal_value d =? 0) eqn:E0; cbn [orb].
  - apply Z.eqb_eq in E0. split; [lia | reflexivity].
  - apply Z.eqb_neq in E0.
    destruct (32 <? decimal_value d) eqn:E1.
    + apply Z.ltb_lt in E1. split; [lia | reflexivity].
    + apply Z.ltb_ge in E1. split; [reflexivity | lia].
Qed.

Lemma getCoder_fixed_bytes_spelling_witness :
  (1 <= decimal_value "32" <= 32 ->
   _getCoder (elementary "bytes32") = Ok (FixedBytesCoder (JNum (decimal_value "32")) ""))
  /\ (~ 1 <= decimal_value "32" <= 32 ->
      _getCoder (elementary "bytes32")
      = Err (INVALID_ARGUMENT "invalid bytes length"
                              (ArgParam "param" (elementary "bytes32")))).
Proof.
  apply (getCoder_fixed_bytes_spelling (elementary "bytes32") "32");
    [reflexivity | reflexivity | discriminate | reflexivity].
Defined.

(** A spelling that neither expression of [_getCoder] matches is an invalid
    type, whatever the base kind past the [switch]. *)
Lemma getCoder_unmatched_spelling (p : ParamType) :
  named_base_kind (baseType p) = false ->
  paramTypeNumber (type p) = None ->
  paramTypeBytes (type p) = None ->
  _getCoder p = Err (INVALID_ARGUMENT "invalid type" (ArgType "type" (type p))).
Proof.
  intros Hk Hn Hb. rewrite (getCoder_by_spelling p Hk), Hn, Hb. reflexivity.
Qed.

(** The same for the spellings as written in the comments of [_getCoder],
    the bare spelling [bytes] apart. *)
Lemma getCoder_invalid_type (p : ParamType) :
  named_base_kind (baseType p) = false ->
  (forall pre d, pre = "uint"%string \/ pre = "int"%string ->
                 all_digits d = true -> type p <> (pre ++ d)%string) ->
  (forall d, all_digits d = true -> d <> EmptyString -> type p <> ("bytes" ++ d)%string) ->
  type p <> "bytes"%string ->
  _getCoder p = Err (INVALID_ARGUMENT "invalid type" (ArgType "type" (type p))).
Proof.
  intros Hk Hn Hb Hbare. apply getCoder_unmatched_spelling; [assumption | |].
  - destruct (paramTypeNumber (type p)) as [[m1 m2]|] eqn:E; [|reflexivity].
    apply paramTypeNumber_inv in E as (Hpre & Hd & Hty).
    exfalso. exact (Hn m1 m2 Hpre Hd Hty).
  - destruct (paramTypeBytes (type p)) as [m1|] eqn:E; [|reflexivity].
    apply paramTypeBytes_inv in E as (Hd & Hty).
    exfalso. destruct m1 as [|c m1].
    + apply Hbare. exact Hty.
    + apply (Hb (String c m1) Hd); [discriminate | exact Hty].
Qed.

(** C5: a descriptor whose base kind is its spelling, as it is for every
    type that is neither an array nor a tuple, and that has no named base
    kind and matches neither [u?int] with digits nor [bytes] with at least
    one digit, fails with the invalid-type error, an invalid argument that
    names the spelling; no coder is returned. *)
Theorem getCoder_invalid_type_spelling (p : ParamType) :
  baseType p = type p ->
  named_base_kind (baseType p) = false ->
  (forall pre d, pre = "uint"%string \/ pre = "int"%string ->
                 all_digits d = true -> type p <> (pre ++ d)%string) ->
  (forall d, all_digits d = true -> d <> EmptyString -> type p <> ("bytes" ++ d)%string) ->
  _getCoder p = Err (INVALID_ARGUMENT "invalid type" (ArgType "type" (type p))).
Proof.
  intros Hbase Hk Hn Hb. apply getCoder_invalid_type; try assumption.
  intros Hbytes. rewrite Hbase, Hbytes in Hk. discriminate.
Qed.

Lemma getCoder_invalid_type_spelling_witness :
  _getCoder (elementary "uint8[") = Err (INVALID_ARGUMENT "invalid type" (ArgType "type" "uint8[")).
Proof.
  apply (getCoder_invalid_type_spelling (elementary "uint8[")).
  - reflexivity.
  - reflexivity.
  - intros pre d [-> | ->] Hd Heq.
    + injection Heq as <-. discriminate.
    + discriminate.
  - intros d _ _ Heq. discriminate.
Defined.

(** The descriptor spelled [bytes] with another base kind, which no type
    that is neither an array nor a tuple has: the second expression matches
    it with an empty capture, and the size of the coder is [NaN]. *)
Remark getCoder_bare_bytes_spelling :
  let p := mkParamType "x" "bytes" "fixedBytes" 0 None None in
  named_base_kind (baseType p) = false
  /\ (forall pre d, pre = "uint"%string \/ pre = "int"%string ->
                    type p <> (pre ++ d)%string)
  /\ (forall d, d <> EmptyString -> type p <> ("bytes" ++ d)%string)
  /\ _getCoder p = Ok (FixedBytesCoder JNaN "x").
Proof.
  cbv zeta. cbn [baseType type]. repeat split.
  - intros pre d [-> | ->]; discriminate.
  - intros [|c d] Hne; [congruence | discriminate].
Qed.

(** C7: a descriptor of a named base kind resolves to the coder of that kind
    whatever its spelling: no expression is matched against it. An array
    resolves its element type first, a tuple each of its components in
    order, and the first failure among them is the failure of the whole. *)
Theorem getCoder_named_base_kind (p : ParamType) :
  (baseType p = "address"%string -> _getCoder p = Ok (AddressCoder (name p)))
  /\ (baseType p = "bool"%string -> _getCoder p = Ok (BooleanCoder (name p)))
  /\ (baseType p = "string"%string -> _getCoder p = Ok (StringCoder (name p)))
  /\ (baseType p = "bytes"%string -> _getCoder p = Ok (BytesCoder (name p)))
  /\ (baseType p = "array"%string ->
      _getCoder p =
      match arrayChildren p with
      | Some child =>
          c <- _getCoder child ;; Ok (ArrayCoder c (arrayLength p) (name p))
      | None => Err TypeError
      end)
  /\ (baseType p = "tuple"%string ->
      _getCoder p =
      (cs <- mapM _getCoder (match components p with Some l => l | None => [] end) ;;
       Ok (TupleCoder cs (name p))))
  /\ (baseType p = ""%string -> _getCoder p = Ok (NullCoder (name p))).
Proof.
  destruct p as [pname ptype pbase plen pchildren pcomps].
  cbn [baseType name arrayChildren arrayLength components].
  repeat split; intros ->; cbn [_getCoder String.eqb Ascii.eqb Bool.eqb];
    try reflexivity.
  destruct pcomps; reflexivity.
Qed.

Lemma getCoder_named_base_kind_witness :
  _getCoder (mkParamType "to" "uint7" "address" 0 None None) = Ok (AddressCoder "to")
  /\ _getCoder (array_of "bool[2]" (mkParamType "" "bytes99" "bool" 0 None None) 2)
     = Ok (ArrayCoder (BooleanCoder "") 2 "")
  /\ _getCoder (tuple_of "tuple" [elementary "string"; elementary "bytes"; elementary ""])
     = Ok (TupleCoder [StringCoder ""; BytesCoder ""; NullCoder ""] "").
Proof.
  split; [|split].
  - apply (getCoder_named_base_kind (mkParamType "to" "uint7" "address" 0 None None)).
    reflexivity.
  - apply (getCoder_named_base_kind
             (array_of "bool[2]" (mkParamType "" "bytes99" "bool" 0 None None) 2)).
    reflexivity.
  - apply (getCoder_named_base_kind
             (tuple_of "tuple" [elementary "string"; elementary "bytes"; elementary ""])).
    reflexivity.
Defined.

(** C9: a tuple descriptor without a components list resolves to the tuple
    coder with no child coder, as the same descriptor with the empty
    components list does. *)
Theorem getCoder_tuple_without_components (p : ParamType) :
  baseType p = "tuple"%string ->
  components p = None ->
  _getCoder p = Ok (TupleCoder [] (name p))
  /\ _getCoder (with_components p (Some [])) = _getCoder p.
Proof.
  destruct p as [pname ptype pbase plen pchildren pcomps].
  cbn [baseType components name]. intros -> ->. split; reflexivity.
Qed.

Lemma getCoder_tuple_without_components_witness :
  _getCoder (mkParamType "pair" "tuple" "tuple" 0 None None) = Ok (TupleCoder [] "pair")
  /\ _getCoder (mkParamType "pair" "tuple" "tuple" 0 None (Some []))
     = _getCoder (mkParamType "pair" "tuple" "tuple" 0 None None).
Proof.
  apply (getCoder_tuple_without_components (mkParamType "pair" "tuple" "tuple" 0 None None));
    reflexivity.
Defined.

Lemma or_default_nonempty (s d : string) : s <> EmptyString -> or_default s d = s.
Proof. destruct s; [congruence | reflexivity]. Qed.

Lemma zero_digits_app_nonempty (k : nat) (d : string) :
  d <> EmptyString -> (zero_digits k ++ d)%string <> EmptyString.
Proof. destruct k; cbn; [trivial | discriminate]. Qed.

(** C10: zeros in front of the digits of a suffix change nothing: where the
    spelling without them resolves to a coder, the spelling with them
    resolves to the same coder. *)
Theorem getCoder_leading_zeros (p q : ParamType) (pre d : string) (k : nat) (c : Coder) :
  named_base_kind (baseType p) = false ->
  named_base_kind (baseType q) = false ->
  name q = name p ->
  pre = "uint"%string \/ pre = "int"%string \/ pre = "bytes"%string ->
  all_digits d = true ->
  d <> EmptyString ->
  type p = (pre ++ d)%string ->
  type q = (pre ++ zero_digits k ++ d)%string ->
  _getCoder p = Ok c ->
  _getCoder q = Ok c.
Proof.
  intros Hp Hq Hname Hpre Hd Hne Htp Htq.
  pose proof (zero_digits_app_nonempty k d Hne) as Hne'.
  assert (Hd' : all_digits (zero_digits k ++ d) = true)
    by (rewrite all_digits_zero_digits; exact Hd).
  rewrite (getCoder_by_spelling p Hp), (getCoder_by_spelling q Hq), Htp, Htq, Hname.
  assert (Hpre' : (pre = "uint"%string \/ pre = "int"%string) \/ pre = "bytes"%string) by tauto.
  destruct Hpre' as [Hpre' | ->].
  - rewrite !paramTypeNumber_spelling by assumption. cbv zeta.
    rewrite !or_default_nonempty, !parseInt_digits, decimal_value_zero_digits by assumption.
    destruct (js_eq _ 0 || js_gt _ 256 || js_mod_ne0 _ 8); [discriminate | trivial].
  - destruct (paramTypeBytes_spelling d Hd) as [-> ->].
    destruct (paramTypeBytes_spelling _ Hd') as [-> ->]. cbv zeta.
    rewrite !parseInt_digits, decimal_value_zero_digits by assumption.
    destruct (js_eq _ 0 || js_gt _ 32); [discriminate | trivial].
Qed.

Lemma getCoder_leading_zeros_witness :
  _getCoder (elementary "uint032") = Ok (NumberCoder (JNum 4) false "")
  /\ _getCoder (elementary "bytes01") = Ok (FixedBytesCoder (JNum 1) "").
Proof.
  split.
  - apply (getCoder_leading_zeros (elementary "uint32") (elementary "uint032") "uint" "32" 1);
      try reflexivity; [left; reflexivity | discriminate].
  - apply (getCoder_leading_zeros (elementary "bytes1") (elementary "bytes01") "bytes" "1" 1);
      try reflexivity; [right; right; reflexivity | discriminate].
Defined.

(** * The two entry points *)

Lemma mapM_length {A B : Type} (f : A -> result B) (l : list A) (l' : list B) :
  mapM f l = Ok l' -> List.length l' = List.length l.
Proof.
  revert l'; induction l as [|a l IH]; intros l' H; cbn in H.
  - injection H as <-. reflexivity.
  - destruct (f a) as [b|e]; cbn in H; [|discriminate].
    destruct (mapM f l) as [bs|e]; cbn in H; [|discriminate].
    injection H as <-. cbn. f_equal. apply IH. reflexivity.
Qed.

(** C2: two lists of different lengths are rejected with the invalid
    argument of the length mismatch whatever the types and the values are,
    so before anything is resolved or written; with lists of the same length
    [encode] still fails with an invalid argument when a type fails to
    resolve with one, so the two lengths do not decide alone. *)
Theorem encode_length_mismatch_first (fromString : string -> result ParamType)
    (self : AbiCoder) (types : list TypeArg) (values : list Value) :
  (List.length types <> List.length values ->
   encode fromString self types values
   = Err (INVALID_ARGUMENT "types/values length mismatch"
            (CountMismatch (List.length types) (List.length values))))
  /\ (List.length types = List.length values ->
      forall message params,
        getCoders fromString types = Err (INVALID_ARGUMENT message params) ->
        encode fromString self types values = Err (INVALID_ARGUMENT message params)).
Proof.
  unfold encode. split.
  - intros Hl. apply Nat.eqb_neq in Hl. rewrite Hl. reflexivity.
  - intros Hl message params Hc. rewrite Hl, Nat.eqb_refl, Hc. reflexivity.
Qed.

Lemma encode_length_mismatch_first_witness :
  encode no_parser defaultAbiCoder [TypeParam (elementary "uint7")] []
  = Err (INVALID_ARGUMENT "types/values length mismatch" (CountMismatch 1 0))
  /\ encode no_parser defaultAbiCoder [TypeParam (elementary "uint7")] [VNumber 1]
     = Err (INVALID_ARGUMENT "invalid uint bit length"
              (ArgParam "param" (elementary "uint7"))).
Proof.
  split.
  - apply (proj1 (encode_length_mismatch_first no_parser defaultAbiCoder
                    [TypeParam (elementary "uint7")] [])).
    discriminate.
  - apply (proj2 (encode_length_mismatch_first no_parser defaultAbiCoder
                    [TypeParam (elementary "uint7")] [VNumber 1])); reflexivity.
Defined.

(** The invalid argument is not the length mismatch alone: one type and one
    value, and [encode] fails with an invalid argument all the same. *)
Lemma encode_invalid_argument_with_equal_lengths :
  ~ ((exists message params,
         encode no_parser defaultAbiCoder [TypeParam (elementary "uint7")] [VNumber 1]
         = Err (INVALID_ARGUMENT message params))
     <-> List.length [TypeParam (elementary "uint7")] <> List.length [VNumber 1]).
Proof.
  intros [H _]. apply H; [|reflexivity].
  eexists _, _. reflexivity.
Qed.

(** * The codec *)

Lemma Ok_inj {A : Type} (a b : A) : Ok a = Ok b -> a = b.
Proof. congruence. Qed.

(** * The Writer *)

Lemma be_bytes_length (n : nat) (z : Z) : List.length (be_bytes n z) = n.
Proof.
  revert z; induction n as [|n IH]; intros z; [reflexivity|].
  cbn [be_bytes]. rewrite length_app, IH. cbn. lia.
Qed.

Lemma finalize_filled (segs : list (list byte)) :
  finalize_segments (map Some segs) = Ok (List.concat segs).
Proof.
  induction segs as [|bs segs IH]; [reflexivity|].
  cbn. rewrite IH. reflexivity.
Qed.

Lemma segments_length_filled (ws : nat) (segs : list (list byte)) :
  list_sum (map (segment_length ws) (map Some segs)) = List.length (List.concat segs).
Proof.
  unfold list_sum. induction segs as [|bs segs IH]; [reflexivity|].
  cbn. rewrite length_app, IH. reflexivity.
Qed.

Lemma entry_patches_app (i : nat) (es es' : list HeadEntry) :
  entry_patches i (es ++ es') = entry_patches i es ++ entry_patches (i + List.length es) es'.
Proof.
  revert i; induction es as [|[bs|off] es IH]; intros i; cbn.
  - rewrite Nat.add_0_r. reflexivity.
  - rewrite IH. do 2 f_equal. lia.
  - rewrite IH. do 3 f_equal. lia.
Qed.

Lemma entry_patches_static (i : nat) (segs : list (list byte)) :
  entry_patches i (map inl segs) = [].
Proof.
  revert i; induction segs as [|bs segs IH]; intros i; [reflexivity|]. cbn. apply IH.
Qed.

Lemma fill_segment_at (pre : list (option (list byte))) (rest : list (option (list byte)))
    (word : list byte) :
  fill_segment (pre ++ None :: rest) (List.length pre) word = Ok (pre ++ Some word :: rest).
Proof.
  induction pre as [|s pre IH]; [reflexivity|].
  cbn [List.length app fill_segment]. rewrite IH.
  destruct s; reflexivity.
Qed.

Lemma fill_offsets_entries (ws base : nat) (es : list HeadEntry) :
  forall pre : list (list byte),
    fill_offsets (mkWriter ws (map Some pre ++ map entry_segment es))
                 (entry_patches (List.length pre) es) base
    = Ok (mkWriter ws (map Some (pre ++ map (entry_bytes ws base) es))).
Proof.
  induction es as [|[bs|off] es IH]; intros pre.
  - cbn. rewrite !app_nil_r. reflexivity.
  - cbn [map entry_segment entry_patches entry_bytes].
    specialize (IH (pre ++ [bs])).
    rewrite length_app, Nat.add_1_r, map_app, <- app_assoc in IH. cbn [map app] in IH.
    rewrite IH, <- app_assoc. reflexivity.
  - cbn [map entry_segment entry_patches entry_bytes fill_offsets].
    unfold fill. cbn [segments writer_wordSize].
    rewrite <- (length_map Some pre) at 1.
    rewrite fill_segment_at. cbn [bind].
    specialize (IH (pre ++ [be_bytes ws (Z.of_nat (base + off))])).
    rewrite length_app, Nat.add_1_r, map_app, <- app_assoc in IH. cbn [map app] in IH.
    unfold Writer_word. cbn [writer_wordSize].
    rewrite IH, <- app_assoc. reflexivity.
Qed.

Lemma entries_length (ws base : nat) (es : list HeadEntry) :
  list_sum (map (segment_length ws) (map entry_segment es))
  = List.length (List.concat (map (entry_bytes ws base) es)).
Proof.
  unfold list_sum. induction es as [|[bs|off] es IH]; [reflexivity| |];
    cbn; rewrite length_app, IH; [|rewrite be_bytes_length]; reflexivity.
Qed.

Lemma head_bytes_length (ws base : nat) (mbs : list (bool * list byte)) :
  forall tailOffset,
    List.length (head_bytes ws base tailOffset mbs) = head_length ws mbs.
Proof.
  induction mbs as [|[[|] bs] mbs IH]; intros tailOffset; [reflexivity| |];
    cbn; rewrite length_app, IH; [rewrite be_bytes_length|]; reflexivity.
Qed.

(** * The head/tail algorithm writes [pack_bytes] *)


Lemma pack_members_appends (ws : nat) (ms : list EncMember)
    (ps : list (bool * result (list byte))) :
  Forall2 (member_appends ws) ms ps ->
  forall (es : list HeadEntry) (ds : list (list byte)),
    match mapM member_bytes ps with
    | Ok mbs =>
        exists es' ds',
          pack_members (mkWriter ws (map entry_segment es), mkWriter ws (map Some ds),
                        entry_patches 0 es) ms
          = Ok (mkWriter ws (map entry_segment (es ++ es')),
                mkWriter ws (map Some (ds ++ ds')), entry_patches 0 (es ++ es'))
          /\ (forall base,
                 List.concat (map (entry_bytes ws base) es')
                 = head_bytes ws base (List.length (List.concat ds)) mbs)
          /\ List.concat ds' = tail_bytes mbs
    | Err e =>
        pack_members (mkWriter ws (map entry_segment es), mkWriter ws (map Some ds),
                      entry_patches 0 es) ms = Err e
    end.
Proof.
  induction 1 as [|m p ms ps [Hdyn Hm] _ IH]; intros es ds.
  - cbn. exists [], []. rewrite !app_nil_r. auto.
  - cbn [mapM pack_members]. unfold member_bytes at 1, pack_member.
    rewrite Hdyn. destruct p as [dyn pr]. cbn [fst snd] in *.
    destruct dyn.
    + specialize (Hm (mkWriter ws (map Some ds)) eq_refl).
      destruct pr as [bs|e]; cbn [appends bind] in *.
      * destruct Hm as (segs & -> & Hbs). cbn [bind reservePlaceholder appendSegment
          segments writer_wordSize].
        unfold Writer_length. cbn [segments writer_wordSize].
        rewrite segments_length_filled, length_map.
        specialize (IH (es ++ [inr (List.length (List.concat ds))]) (ds ++ segs)).
        rewrite entry_patches_app, map_app, map_app in IH. cbn [entry_patches map] in IH.
        rewrite Nat.add_0_l in IH.
        destruct (mapM member_bytes ps) as [mbs|e]; cbn [bind].
        -- destruct IH as (es' & ds' & Hp & Hh & Ht).
           exists (inr (List.length (List.concat ds)) :: es'), (segs ++ ds').
           rewrite <- !app_assoc in Hp. cbn [app] in Hp.
           split; [exact Hp|]. split.
           ++ intros base. cbn [map List.concat entry_bytes head_bytes].
              rewrite Hh, concat_app, length_app, Hbs. reflexivity.
           ++ cbn [tail_bytes]. rewrite concat_app, Hbs, Ht. reflexivity.
        -- exact IH.
      * rewrite Hm. reflexivity.
    + specialize (Hm (mkWriter ws (map entry_segment es)) eq_refl).
      destruct pr as [bs|e]; cbn [appends bind] in *.
      * destruct Hm as (segs & -> & Hbs). cbn [bind segments writer_wordSize].
        specialize (IH (es ++ map inl segs) ds).
        rewrite entry_patches_app, entry_patches_static, app_nil_r, map_app, map_map in IH.
        cbn [entry_segment] in IH.
        destruct (mapM member_bytes ps) as [mbs|e]; cbn [bind].
        -- destruct IH as (es' & ds' & Hp & Hh & Ht).
           exists (map inl segs ++ es'), ds'.
           rewrite <- !app_assoc in Hp.
           split; [exact Hp|]. split.
           ++ intros base. cbn [head_bytes].
              rewrite map_app, concat_app, map_map, Hh. cbn [entry_bytes].
              rewrite map_id, Hbs. reflexivity.
           ++ cbn [tail_bytes]. exact Ht.
        -- exact IH.
      * rewrite Hm. reflexivity.
Qed.

Lemma pack_appends (w : Writer) (ms : list EncMember)
    (ps : list (bool * result (list byte))) :
  Forall2 (member_appends (writer_wordSize w)) ms ps ->
  appends (pack w ms) w (pack_bytes (writer_wordSize w) ps).
Proof.
  intros H. pose proof (pack_members_appends _ ms ps H [] []) as Hp.
  unfold pack, pack_bytes, Writer_new. cbn [map entry_patches app] in Hp.
  destruct (mapM member_bytes ps) as [mbs|e]; cbn [bind appends].
  - destruct Hp as (es' & ds' & -> & Hh & Ht). cbn [bind].
    pose proof (fill_offsets_entries (writer_wordSize w)
                  (Writer_length (mkWriter (writer_wordSize w) (map entry_segment es')))
                  es' []) as Hf.
    cbn [map app List.length] in Hf. rewrite Hf. cbn [bind].
    unfold appendChild, finalize. cbn [segments].
    rewrite !finalize_filled. cbn [bind fst appendSegment segments writer_wordSize].
    set (base := Writer_length _).
    exists [List.concat (map (entry_bytes (writer_wordSize w) base) es'); List.concat ds'].
    split.
    + unfold appendSegment. cbn [segments writer_wordSize map].
      rewrite <- app_assoc. reflexivity.
    + cbn [List.concat]. rewrite app_nil_r, Hh, Ht. do 2 f_equal.
      subst base. unfold Writer_length. cbn [segments writer_wordSize].
      rewrite (entries_length _ 0), Hh. apply head_bytes_length.
  - rewrite Hp. reflexivity.
Qed.

Lemma appends_after_word (w : Writer) (word : list byte) (r : result Writer)
    (p : result (list byte)) :
  appends r (appendWord w word) p ->
  appends r w (body <- p ;; Ok (word ++ body)).
Proof.
  destruct p as [bs|e]; cbn [appends bind]; [|trivial].
  intros (segs & -> & <-). exists (word :: segs). split; [|reflexivity].
  cbn [appendWord appendSegment segments writer_wordSize map].
  rewrite <- app_assoc. reflexivity.
Qed.

(** * Induction on coders *)

Lemma Coder_induction (P : Coder -> Prop) :
  (forall n, P (AddressCoder n)) ->
  (forall n, P (BooleanCoder n)) ->
  (forall n, P (StringCoder n)) ->
  (forall n, P (BytesCoder n)) ->
  (forall c len n, P c -> P (ArrayCoder c len n)) ->
  (forall cs n, Forall P cs -> P (TupleCoder cs n)) ->
  (forall n, P (NullCoder n)) ->
  (forall size signed n, P (NumberCoder size signed n)) ->
  (forall size n, P (FixedBytesCoder size n)) ->
  forall c, P c.
Proof.
  intros Ha Hb Hs Hy Harr Htup Hn Hnum Hfix.
  fix IH 1. intros [n|n|n|n|c len n|cs n|n|size signed n|size n].
  - apply Ha.
  - apply Hb.
  - apply Hs.
  - apply Hy.
  - apply Harr, IH.
  - apply Htup. induction cs as [|c cs IHcs]; constructor; [apply IH | exact IHcs].
  - apply Hn.
  - apply Hnum.
  - apply Hfix.
Qed.

Lemma writer_eta (w : Writer) : mkWriter (writer_wordSize w) (segments w ++ []) = w.
Proof. destruct w. cbn. rewrite app_nil_r. reflexivity. Qed.

(** * [Coder_encode] writes [abi_bytes] *)

Lemma Coder_encode_appends (c : Coder) :
  forall v w, appends (Coder_encode c w v) w (abi_bytes (writer_wordSize w) c v).
Proof.
  induction c as [n|n|n|n|c len n IH|cs n IH|n|size signed n|size n]
    using Coder_induction; intros v w; cbn [Coder_encode abi_bytes].
  - destruct v; cbn [appends]; trivial.
    destruct (List.length a =? 20)%nat; cbn [appends]; trivial.
    eexists [_]. split; [reflexivity | apply app_nil_r].
  - destruct v; cbn [appends]; trivial.
    eexists [_]. split; [reflexivity | apply app_nil_r].
  - destruct v; cbn [appends]; trivial.
    eexists [_; _]. split.
    + cbv zeta. unfold appendPadded, appendWord, appendSegment.
      cbn [segments writer_wordSize map]. rewrite <- app_assoc. reflexivity.
    + cbn [List.concat]. rewrite app_nil_r. reflexivity.
  - destruct v; cbn [appends]; trivial.
    eexists [_; _]. split.
    + cbv zeta. unfold appendPadded, appendWord, appendSegment.
      cbn [segments writer_wordSize map]. rewrite <- app_assoc. reflexivity.
    + cbn [List.concat]. rewrite app_nil_r. reflexivity.
  - destruct v; cbn [appends]; trivial.
    assert (Hms : forall ws,
               Forall2 (member_appends ws)
                 (map (fun x => (dynamic c, fun w' => Coder_encode c w' x)) vs)
                 (map (fun x => (dynamic c, abi_bytes ws c x)) vs)).
    { intros ws. induction vs as [|x vs IHvs]; constructor; [|exact IHvs].
      split; [reflexivity|]. cbn [snd]. intros w' <-. apply IH. }
    destruct (len =? -1).
    + apply appends_after_word.
      apply (pack_appends (appendWord w (Writer_word w (Z.of_nat (List.length vs))))).
      apply Hms.
    + destruct (Z.of_nat (List.length vs) =? len); cbn [appends]; trivial.
      apply pack_appends. apply Hms.
  - destruct v; cbn [appends]; trivial.
    destruct (List.length cs =? List.length vs)%nat; cbn [appends]; trivial.
    apply pack_appends. clear n. revert vs.
    induction IH as [|c cs Hc _ IHcs]; intros [|x vs]; cbn [zipWith]; constructor.
    + split; [reflexivity|]. cbn [snd]. intros w' <-. apply Hc.
    + apply IHcs.
  - destruct v; cbn [appends]; trivial.
    exists []. split; [|reflexivity]. cbn [map]. rewrite writer_eta. reflexivity.
  - destruct v, size; cbn [appends]; trivial.
    destruct (in_range z0 signed z); cbn [appends]; trivial.
    eexists [_]. split; [reflexivity | apply app_nil_r].
  - destruct v; cbn [appends]; trivial.
    destruct (js_eq size _); cbn [appends]; trivial.
    eexists [_]. split; [reflexivity | apply app_nil_r].
Qed.

Lemma Coder_encode_finalize (c : Coder) (v : Value) (ws : nat) :
  (w <- Coder_encode c (Writer_new ws) v ;; finalize w) = abi_bytes ws c v.
Proof.
  pose proof (Coder_encode_appends c v (Writer_new ws)) as H.
  cbn [Writer_new writer_wordSize segments app] in H.
  destruct (abi_bytes ws c v) as [bs|e]; cbn [appends] in H.
  - destruct H as (segs & -> & <-). cbn [bind]. apply finalize_filled.
  - rewrite H. reflexivity.
Qed.

Lemma encode_abi_bytes (fromString : string -> result ParamType) (self : AbiCoder)
    (types : list TypeArg) (values : list Value) (coders : list Coder) :
  getCoders fromString types = Ok coders ->
  List.length types = List.length values ->
  encode fromString self types values = abi_bytes 32 (TupleCoder coders "_") (VList values).
Proof.
  intros Hc Hl. unfold encode. rewrite Hc, Hl, Nat.eqb_refl. cbn [negb bind].
  apply Coder_encode_finalize.
Qed.

(** * Alignment *)


Lemma aligned_app (a b : list byte) : aligned a -> aligned b -> aligned (a ++ b).
Proof. unfold aligned. rewrite length_app. apply Nat.divide_add_r. Qed.

Lemma aligned_nil : aligned [].
Proof. exists 0%nat. reflexivity. Qed.

Lemma aligned_word (z : Z) : aligned (be_bytes 32 z).
Proof. unfold aligned. rewrite be_bytes_length. exists 1%nat. reflexivity. Qed.

Lemma round_up_ge (n : nat) : (n <= round_up n 32)%nat.
Proof.
  unfold round_up. pose proof (Nat.div_mod_eq (n + 32 - 1) 32) as H.
  pose proof (Nat.mod_upper_bound (n + 32 - 1) 32 ltac:(discriminate)). lia.
Qed.

Lemma padded_length (bs : list byte) :
  List.length (padded bs 32) = round_up (List.length bs) 32.
Proof.
  unfold padded, zeros. rewrite length_app, repeat_length.
  pose proof (round_up_ge (List.length bs)). lia.
Qed.

Lemma aligned_padded (bs : list byte) : aligned (padded bs 32).
Proof.
  unfold aligned. rewrite padded_length. unfold round_up.
  eexists. reflexivity.
Qed.

Lemma mapM_member_bytes_aligned (ps : list (bool * result (list byte)))
    (mbs : list (bool * list byte)) :
  Forall (fun p => forall bs, snd p = Ok bs -> aligned bs) ps ->
  mapM member_bytes ps = Ok mbs ->
  Forall (fun m => aligned (snd m)) mbs.
Proof.
  intros H; revert mbs; induction H as [|[dyn pr] ps Hp _ IH]; intros mbs Hm; cbn [mapM] in Hm.
  - injection Hm as <-. constructor.
  - unfold member_bytes at 1 in Hm. cbn [fst snd] in *.
    destruct pr as [bs|e]; cbn [bind] in Hm; [|discriminate].
    destruct (mapM member_bytes ps) as [mbs'|e]; cbn [bind] in Hm; [|discriminate].
    injection Hm as <-. constructor; [apply Hp; reflexivity | apply IH; reflexivity].
Qed.

Lemma head_bytes_aligned (base : nat) (mbs : list (bool * list byte)) :
  Forall (fun m => aligned (snd m)) mbs ->
  forall tailOffset, aligned (head_bytes 32 base tailOffset mbs).
Proof.
  induction 1 as [|[[|] bs] mbs Hb _ IH]; intros tailOffset; cbn [head_bytes].
  - apply aligned_nil.
  - apply aligned_app; [apply aligned_word | apply IH].
  - apply aligned_app; [exact Hb | apply IH].
Qed.

Lemma tail_bytes_aligned (mbs : list (bool * list byte)) :
  Forall (fun m => aligned (snd m)) mbs -> aligned (tail_bytes mbs).
Proof.
  induction 1 as [|[[|] bs] mbs Hb _ IH]; cbn [tail_bytes].
  - apply aligned_nil.
  - apply aligned_app; [exact Hb | exact IH].
  - exact IH.
Qed.

Lemma pack_bytes_aligned (ps : list (bool * result (list byte))) (bs : list byte) :
  Forall (fun p => forall bs, snd p = Ok bs -> aligned bs) ps ->
  pack_bytes 32 ps = Ok bs ->
  aligned bs.
Proof.
  intros H Hp. unfold pack_bytes in Hp.
  destruct (mapM member_bytes ps) as [mbs|e] eqn:Hm; cbn in Hp; [|discriminate].
  injection Hp as <-. pose proof (mapM_member_bytes_aligned ps mbs H Hm) as Ha.
  apply aligned_app; [apply head_bytes_aligned | apply tail_bytes_aligned]; exact Ha.
Qed.

Lemma abi_bytes_aligned (c : Coder) :
  forall v bs, abi_bytes 32 c v = Ok bs -> aligned bs.
Proof.
  induction c as [n|n|n|n|c len n IH|cs n IH|n|size signed n|size n]
    using Coder_induction; intros v bs H; cbn [abi_bytes] in H.
  - destruct v; try discriminate.
    destruct (List.length a =? 20)%nat eqn:E; [|discriminate].
    apply Nat.eqb_eq in E. apply Ok_inj in H as <-.
    unfold aligned, zeros. rewrite length_app, repeat_length, E. exists 1%nat. reflexivity.
  - destruct v; try discriminate. apply Ok_inj in H as <-. apply aligned_word.
  - destruct v; try discriminate. cbv zeta in H. apply Ok_inj in H as <-.
    apply aligned_app; [apply aligned_word | apply aligned_padded].
  - destruct v; try discriminate. cbv zeta in H. apply Ok_inj in H as <-.
    apply aligned_app; [apply aligned_word | apply aligned_padded].
  - destruct v; try discriminate.
    assert (Hms : Forall (fun p : bool * result (list byte) =>
                            forall bs, snd p = Ok bs -> aligned bs)
                    (map (fun x => (dynamic c, abi_bytes 32 c x)) vs)).
    { apply Forall_map, Forall_forall. intros x _ bs'. apply IH. }
    destruct (len =? -1).
    + destruct (pack_bytes 32 _) as [body|e] eqn:Hp; cbn [bind] in H; [|discriminate].
      apply Ok_inj in H as <-. apply aligned_app; [apply aligned_word|].
      exact (pack_bytes_aligned _ _ Hms Hp).
    + destruct (Z.of_nat (List.length vs) =? len); [|discriminate].
      exact (pack_bytes_aligned _ _ Hms H).
  - destruct v; try discriminate.
    destruct (List.length cs =? List.length vs)%nat; [|discriminate].
    refine (pack_bytes_aligned _ _ _ H). clear H n. revert vs.
    induction IH as [|c cs Hc _ IHcs]; intros [|x vs]; cbn [zipWith]; constructor.
    + intros bs'. apply Hc.
    + apply IHcs.
  - destruct v; try discriminate. apply Ok_inj in H as <-. apply aligned_nil.
  - destruct v, size; try discriminate.
    destruct (in_range z0 signed z); [|discriminate]. apply Ok_inj in H as <-. apply aligned_word.
  - destruct v; try discriminate.
    destruct (js_eq size _); [|discriminate]. apply Ok_inj in H as <-. apply aligned_padded.
Qed.

Lemma getCoders_resolves (fromString : string -> result ParamType) (self : AbiCoder)
    (types : list TypeArg) (values : list Value) (d : list byte) :
  encode fromString self types values = Ok d ->
  exists coders,
    getCoders fromString types = Ok coders
    /\ List.length types = List.length values.
Proof.
  unfold encode. intros H.
  destruct (List.length types =? List.length values)%nat eqn:El; [|discriminate].
  cbn [negb] in H. apply Nat.eqb_eq in El.
  destruct (getCoders fromString types) as [coders|e]; [|discriminate].
  exists coders. auto.
Qed.

(** C8: the bytes that [encode] returns, whenever it returns, are a whole
    number of 32-byte words. *)
Theorem encode_length_multiple_of_32 (fromString : string -> result ParamType)
    (self : AbiCoder) (types : list TypeArg) (values : list Value) (d : list byte) :
  encode fromString self types values = Ok d ->
  (List.length d mod 32 = 0)%nat.
Proof.
  intros H. destruct (getCoders_resolves _ _ _ _ _ H) as (coders & Hc & Hl).
  rewrite (encode_abi_bytes _ _ _ _ _ Hc Hl) in H.
  apply abi_bytes_aligned in H. destruct H as [k ->]. apply Nat.Div0.mod_mul.
Qed.

Lemma encode_length_multiple_of_32_witness :
  encode_default [elementary "uint8"; elementary "string"] [VNumber 7; VString "x"]
  = Ok (words [7; 64; 1] ++ padded [x78] 32)
  /\ Nat.modulo (List.length (words [7; 64; 1] ++ padded [x78] 32)) 32 = 0%nat.
Proof.
  split; [reflexivity|].
  apply (encode_length_multiple_of_32 no_parser defaultAbiCoder
           (map TypeParam [elementary "uint8"; elementary "string"])
           [VNumber 7; VString "x"]).
  reflexivity.
Defined.

(** * Words and numbers *)

Lemma Z_of_byte_of_Z (z : Z) : Z_of_byte (byte_of_Z z) = z mod 256.
Proof.
  unfold Z_of_byte, byte_of_Z.
  pose proof (Z.mod_pos_bound z 256 ltac:(lia)) as Hb.
  destruct (Byte.of_N (Z.to_N (z mod 256))) as [b|] eqn:E.
  - apply Byte.to_of_N in E. rewrite E. lia.
  - apply Byte.of_N_None_iff in E. lia.
Qed.

Lemma be_value_snoc (bs : list byte) (b : byte) :
  be_value (bs ++ [b]) = be_value bs * 256 + Z_of_byte b.
Proof. unfold be_value. rewrite fold_left_app. reflexivity. Qed.

Lemma be_value_be_bytes (n : nat) (z : Z) :
  be_value (be_bytes n z) = z mod 2 ^ (8 * Z.of_nat n).
Proof.
  revert z; induction n as [|n IH]; intros z.
  - cbn. rewrite Z.mod_1_r. reflexivity.
  - cbn [be_bytes]. rewrite be_value_snoc, IH, Z_of_byte_of_Z.
    replace (8 * Z.of_nat (S n)) with (8 + 8 * Z.of_nat n) by lia.
    rewrite Z.pow_add_r by lia. change (2 ^ 8) with 256.
    assert (0 < 2 ^ (8 * Z.of_nat n)) by (apply Z.pow_pos_nonneg; lia).
    rewrite Z.rem_mul_r by lia. ring.
Qed.

Lemma be_value_word (z : Z) :
  0 <= z < 2 ^ 256 -> be_value (be_bytes 32 z) = z.
Proof.
  intros Hz. rewrite be_value_be_bytes. change (8 * Z.of_nat 32) with 256.
  apply Z.mod_small. exact Hz.
Qed.

Lemma testbit_top (n x : Z) :
  0 < n -> 0 <= x < 2 ^ n -> Z.testbit x (n - 1) = (2 ^ (n - 1) <=? x).
Proof.
  intros Hn Hx.
  assert (Hp : 2 ^ n = 2 * 2 ^ (n - 1)).
  { replace n with (1 + (n - 1)) at 1 by lia. rewrite Z.pow_add_r by lia. reflexivity. }
  assert (Hpos : 0 < 2 ^ (n - 1)) by (apply Z.pow_pos_nonneg; lia).
  destruct (2 ^ (n - 1) <=? x) eqn:E.
  - apply Z.leb_le in E. apply Z.testbit_true; [lia|].
    assert (x / 2 ^ (n - 1) = 1) as ->; [|reflexivity].
    symmetry. apply (Z.div_unique x (2 ^ (n - 1)) 1 (x - 2 ^ (n - 1))); lia.
  - apply Z.leb_gt in E.
    destruct (Z.eq_dec x 0) as [->|Hx0]; [apply Z.testbit_0_l|].
    apply Z.bits_above_log2; [lia|]. apply Z.log2_lt_pow2; lia.
Qed.

Lemma number_of_word_be_bytes (sz : Z) (signed : bool) (z : Z) :
  1 <= sz <= 32 ->
  in_range sz signed z = true ->
  number_of_word sz signed (be_value (be_bytes 32 z)) = z.
Proof.
  intros Hsz Hr. rewrite be_value_be_bytes. change (8 * Z.of_nat 32) with 256.
  unfold number_of_word, in_range in *.
  assert (Hle : 2 ^ (8 * sz) <= 2 ^ 256) by (apply Z.pow_le_mono_r; lia).
  assert (Hpos : 0 < 2 ^ (8 * sz)) by (apply Z.pow_pos_nonneg; lia).
  assert (Hp : 2 ^ (8 * sz) = 2 * 2 ^ (8 * sz - 1)).
  { replace (8 * sz) with (1 + (8 * sz - 1)) at 1 by lia.
    rewrite Z.pow_add_r by lia. reflexivity. }
  destruct signed.
  - apply andb_true_iff in Hr as [H1 H2]. apply Z.leb_le in H1. apply Z.ltb_lt in H2.
    assert (Hm : (z mod 2 ^ 256) mod 2 ^ (8 * sz) = z mod 2 ^ (8 * sz)).
    { apply Z.mod_mod_divide. exists (2 ^ (256 - 8 * sz)).
      rewrite <- Z.pow_add_r by lia. f_equal. lia. }
    cbv zeta. rewrite Hm, testbit_top by (try apply Z.mod_pos_bound; lia).
    destruct (Z_lt_le_dec z 0) as [Hneg|Hnn].
    + assert (z mod 2 ^ (8 * sz) = z + 2 ^ (8 * sz)) as ->.
      { symmetry. apply (Z.mod_unique z _ (-1)); lia. }
      destruct (2 ^ (8 * sz - 1) <=? z + 2 ^ (8 * sz)) eqn:E; [lia|].
      apply Z.leb_gt in E. lia.
    + rewrite Z.mod_small by lia.
      destruct (2 ^ (8 * sz - 1) <=? z) eqn:E; [|reflexivity].
      apply Z.leb_le in E. lia.
  - apply andb_true_iff in Hr as [H1 H2]. apply Z.leb_le in H1. apply Z.ltb_lt in H2.
    apply Z.mod_small. lia.
Qed.

(** * The Reader *)

Lemma skipn_prefix {A : Type} (pre rest : list A) : skipn (List.length pre) (pre ++ rest) = rest.
Proof. rewrite skipn_app, skipn_all, Nat.sub_diag. reflexivity. Qed.

Lemma firstn_prefix {A : Type} (pre rest : list A) : firstn (List.length pre) (pre ++ rest) = pre.
Proof. rewrite firstn_app, firstn_all, Nat.sub_diag, app_nil_r. reflexivity. Qed.

Lemma readWord_at (r : Reader) (pre word post : list byte) :
  data r = pre ++ word ++ post ->
  offset r = List.length pre ->
  reader_wordSize r = 32%nat ->
  List.length word = 32%nat ->
  readWord r = Ok (word, advance r 32).
Proof.
  intros Hd Ho Hw Hl. unfold readWord. rewrite Hd, Ho, Hw, skipn_prefix.
  assert (Hf : firstn 32 (word ++ post) = word) by (rewrite <- Hl; apply firstn_prefix).
  rewrite Hf.
  destruct (_ <=? _)%nat eqn:E; [reflexivity|].
  apply Nat.leb_gt in E. rewrite !length_app in E. lia.
Qed.

Lemma readBytes_at (r : Reader) (pre bs post : list byte) :
  data r = pre ++ padded bs 32 ++ post ->
  offset r = List.length pre ->
  reader_wordSize r = 32%nat ->
  readBytes r (Z.of_nat (List.length bs)) = Ok (bs, advance r (round_up (List.length bs) 32)).
Proof.
  intros Hd Ho Hw. unfold readBytes. rewrite Hd, Ho, Hw, Nat2Z.id, skipn_prefix.
  assert (Hf : firstn (List.length bs) (padded bs 32 ++ post) = bs)
    by (unfold padded; rewrite <- app_assoc; apply firstn_prefix).
  rewrite Hf.
  destruct (_ && _) eqn:E; [reflexivity|].
  apply andb_false_iff in E. rewrite !length_app, padded_length in E.
  pose proof (round_up_ge (List.length bs)).
  destruct E as [E|E]; [apply Z.leb_gt in E | apply Nat.leb_gt in E]; lia.
Qed.

Lemma subReaderAt_at (r : Reader) (pre rest : list byte) :
  data r = pre ++ rest ->
  subReaderAt r (Z.of_nat (List.length pre))
  = Ok (mkReader rest 0 (reader_wordSize r) (reader_coerceFunc r)).
Proof.
  intros Hd. unfold subReaderAt. rewrite Hd, Nat2Z.id, skipn_prefix.
  destruct (_ && _) eqn:E; [reflexivity|].
  apply andb_false_iff in E. rewrite length_app in E.
  destruct E as [E|E]; apply Z.leb_gt in E; lia.
Qed.

Lemma advance_advance (r : Reader) (a b : nat) : advance (advance r a) b = advance r (a + b).
Proof. unfold advance. cbn. f_equal. lia. Qed.

Lemma advance_0 (r : Reader) : advance r 0 = r.
Proof. destruct r. unfold advance. cbn. f_equal. lia. Qed.

(** * Decoding what was encoded *)


Lemma keep_value_not_null (v : Value) (vs : list Value) :
  v <> VNull -> keep_value v vs = v :: vs.
Proof. destruct v; intros H; [reflexivity .. | contradiction]. Qed.

Lemma in_domain_not_null (c : Coder) (v : Value) : in_domain c v = true -> v <> VNull.
Proof. intros H ->. destruct c as [| | | | | | |[|]|[|]]; discriminate. Qed.

Lemma unpack_members_decodes (ms : list DecMember) (vs : list Value)
    (mbs : list (bool * list byte)) :
  members_decode ms vs mbs ->
  forall (baseReader r : Reader) (pre hpre tpre post : list byte),
    let base := (List.length hpre + head_length 32 mbs)%nat in
    let head := head_bytes 32 base (List.length tpre) mbs in
    Z.of_nat (base + List.length tpre + List.length (tail_bytes mbs)) < 2 ^ 256 ->
    data baseReader = hpre ++ head ++ tpre ++ tail_bytes mbs ++ post ->
    reader_wordSize baseReader = 32%nat ->
    reader_coerceFunc baseReader = None ->
    data r = pre ++ hpre ++ head ++ tpre ++ tail_bytes mbs ++ post ->
    offset r = (List.length pre + List.length hpre)%nat ->
    reader_wordSize r = 32%nat ->
    reader_coerceFunc r = None ->
    unpack_members baseReader ms r = Ok (vs, advance r (head_length 32 mbs)).
Proof.
  induction 1 as [|[dyn dec] v bs ms vs mbs Hv Hm _ IH];
    intros baseReader r pre hpre tpre post base head Hb Hbd Hbw Hbc Hd Ho Hw Hc.
  - cbn. rewrite advance_0. reflexivity.
  - cbn [fst snd] in *. cbn [unpack_members fst snd]. destruct dyn.
    + cbn [head_length head_bytes tail_bytes] in *.
      set (word := be_bytes 32 (Z.of_nat (base + List.length tpre))) in *.
      assert (Hwl : List.length word = 32%nat) by apply be_bytes_length.
      rewrite (readWord_at r (pre ++ hpre) word
                 (head_bytes 32 base (List.length tpre + List.length bs) mbs
                  ++ tpre ++ (bs ++ tail_bytes mbs) ++ post));
        [| rewrite Hd; subst head; rewrite <- !app_assoc; reflexivity
         | rewrite length_app; exact Ho | exact Hw | exact Hwl].
      cbn [bind fst snd]. subst word. rewrite be_value_word by (rewrite length_app in Hb; lia).
      set (word := be_bytes 32 (Z.of_nat (base + List.length tpre))) in *.
      assert (Hbase : (base + List.length tpre)%nat
                      = List.length (hpre ++ word
                          ++ head_bytes 32 base (List.length tpre + List.length bs) mbs
                          ++ tpre)).
      { rewrite !length_app, head_bytes_length, Hwl. subst base. lia. }
      rewrite Hbase.
      rewrite (subReaderAt_at baseReader _ (bs ++ tail_bytes mbs ++ post));
        [| rewrite Hbd; subst head; rewrite <- !app_assoc; reflexivity ].
      cbn [bind]. rewrite Hbw, Hbc.
      destruct (Hm (mkReader (bs ++ tail_bytes mbs ++ post) 0 32 None) []
                  (tail_bytes mbs ++ post) eq_refl eq_refl eq_refl eq_refl)
        as (k & -> & _).
      cbn [bind fst snd].
      rewrite (IH baseReader (advance r 32) pre (hpre ++ word) (tpre ++ bs) post).
      * cbn [bind fst snd]. rewrite advance_advance, (keep_value_not_null _ _ Hv).
        reflexivity.
      * rewrite !length_app, Hwl in *. subst base.
        replace (List.length hpre + 32 + head_length 32 mbs)%nat
          with (List.length hpre + (32 + head_length 32 mbs))%nat by lia.
        lia.
      * rewrite Hbd. subst head. rewrite !length_app, Hwl, <- !app_assoc.
        subst base.
        replace (List.length hpre + 32 + head_length 32 mbs)%nat
          with (List.length hpre + (32 + head_length 32 mbs))%nat by lia.
        reflexivity.
      * exact Hbw.
      * exact Hbc.
      * cbn [advance data]. rewrite Hd. subst head. rewrite !length_app, Hwl, <- !app_assoc.
        subst base.
        replace (List.length hpre + 32 + head_length 32 mbs)%nat
          with (List.length hpre + (32 + head_length 32 mbs))%nat by lia.
        reflexivity.
      * cbn [advance offset]. rewrite Ho, length_app, Hwl. lia.
      * exact Hw.
      * exact Hc.
    + cbn [head_length head_bytes tail_bytes] in *.
      destruct (Hm r (pre ++ hpre)
                  (head_bytes 32 base (List.length tpre) mbs
                   ++ tpre ++ tail_bytes mbs ++ post))
        as (k & -> & Hk);
        [ rewrite Hd; subst head; rewrite <- !app_assoc; reflexivity
        | rewrite length_app; exact Ho | exact Hw | exact Hc |].
      rewrite (Hk eq_refl). cbn [bind fst snd].
      rewrite (IH baseReader (advance r (List.length bs)) pre (hpre ++ bs) tpre post).
      * cbn [bind fst snd]. rewrite advance_advance, (keep_value_not_null _ _ Hv).
        reflexivity.
      * rewrite !length_app in *. subst base.
        replace (List.length hpre + List.length bs + head_length 32 mbs)%nat
          with (List.length hpre + (List.length bs + head_length 32 mbs))%nat by lia.
        lia.
      * rewrite Hbd. subst head. rewrite !length_app, <- !app_assoc. subst base.
        replace (List.length hpre + List.length bs + head_length 32 mbs)%nat
          with (List.length hpre + (List.length bs + head_length 32 mbs))%nat by lia.
        reflexivity.
      * exact Hbw.
      * exact Hbc.
      * cbn [advance data]. rewrite Hd. subst head. rewrite !length_app, <- !app_assoc.
        subst base.
        replace (List.length hpre + List.length bs + head_length 32 mbs)%nat
          with (List.length hpre + (List.length bs + head_length 32 mbs))%nat by lia.
        reflexivity.
      * cbn [advance offset]. rewrite Ho, length_app. lia.
      * exact Hw.
      * exact Hc.
Qed.

Lemma unpack_decodes (ms : list DecMember) (vs : list Value)
    (mbs : list (bool * list byte)) (r : Reader) (pre post : list byte) :
  members_decode ms vs mbs ->
  Z.of_nat (head_length 32 mbs + List.length (tail_bytes mbs)) < 2 ^ 256 ->
  data r = pre ++ (head_bytes 32 (head_length 32 mbs) 0 mbs ++ tail_bytes mbs) ++ post ->
  offset r = List.length pre ->
  reader_wordSize r = 32%nat ->
  reader_coerceFunc r = None ->
  unpack ms r = Ok (vs, advance r (head_length 32 mbs)).
Proof.
  intros Hm Hb Hd Ho Hw Hc. unfold unpack. rewrite Ho.
  rewrite (subReaderAt_at r pre _ Hd). cbn [bind].
  apply (unpack_members_decodes ms vs mbs Hm _ r pre [] [] post); cbn [List.length app];
    try assumption; try reflexivity.
  - rewrite Nat.add_0_r. exact Hb.
  - cbn [data]. rewrite <- app_assoc. reflexivity.
  - rewrite Hd, <- app_assoc. reflexivity.
  - rewrite Ho. lia.
Qed.

Lemma member_bytes_le (mbs : list (bool * list byte)) :
  Forall (fun m => (List.length (snd m) <= head_length 32 mbs + List.length (tail_bytes mbs))%nat)
         mbs.
Proof.
  induction mbs as [|[[|] bs] mbs IH]; constructor; cbn [head_length tail_bytes snd];
    try (rewrite ?length_app; lia);
    (eapply Forall_impl; [|exact IH]); cbn beta; intros m Hm; rewrite ?length_app; lia.
Qed.

Lemma tail_bytes_static (mbs : list (bool * list byte)) :
  Forall (fun m => fst m = false) mbs -> tail_bytes mbs = [].
Proof.
  induction 1 as [|[dyn bs] mbs Hd _ IH]; [reflexivity|].
  cbn [fst] in Hd. subst dyn. exact IH.
Qed.

Lemma pack_bytes_inv (ps : list (bool * result (list byte))) (bs : list byte) :
  pack_bytes 32 ps = Ok bs ->
  exists mbs,
    mapM member_bytes ps = Ok mbs
    /\ bs = head_bytes 32 (head_length 32 mbs) 0 mbs ++ tail_bytes mbs
    /\ List.length bs = (head_length 32 mbs + List.length (tail_bytes mbs))%nat.
Proof.
  unfold pack_bytes. intros H.
  destruct (mapM member_bytes ps) as [mbs|e]; cbn [bind] in H; [|discriminate].
  apply Ok_inj in H as <-. exists mbs. split; [reflexivity|]. split; [reflexivity|].
  rewrite length_app, head_bytes_length. reflexivity.
Qed.

Lemma round_up_word (n : nat) : (1 <= n <= 32)%nat -> round_up n 32 = 32%nat.
Proof.
  intros Hn. unfold round_up.
  assert ((n + 32 - 1) / 32 = 1)%nat as ->; [|reflexivity].
  symmetry. apply (Nat.div_unique (n + 32 - 1) 32 1 (n - 1)); lia.
Qed.


Lemma array_members (c : Coder) (vs : list Value) :
  reads_back c ->
  forall mbs,
    forallb (in_domain c) vs = true ->
    mapM member_bytes (map (fun x => (dynamic c, abi_bytes 32 c x)) vs) = Ok mbs ->
    Forall (fun m => Z.of_nat (List.length (snd m)) < 2 ^ 256) mbs ->
    members_decode (repeat (dynamic c, Coder_decode c) (List.length vs)) vs mbs
    /\ Forall (fun m => fst m = dynamic c) mbs.
Proof.
  intros Hc. induction vs as [|x vs IH]; intros mbs Hdom Hm Hb; cbn [map mapM] in Hm.
  - apply Ok_inj in Hm as <-. split; constructor.
  - cbn [forallb] in Hdom. apply andb_true_iff in Hdom as [Hx Hvs].
    unfold member_bytes at 1 in Hm. cbn [fst snd] in Hm.
    destruct (abi_bytes 32 c x) as [bs|e] eqn:Ex; cbn [bind] in Hm; [|discriminate].
    destruct (mapM member_bytes _) as [mbs'|e] eqn:Em; cbn [bind] in Hm; [|discriminate].
    apply Ok_inj in Hm as <-. inversion Hb as [|? ? Hb1 Hb2]; subst.
    destruct (IH mbs' Hvs eq_refl Hb2) as [IH1 IH2].
    split; [|constructor; [reflexivity | exact IH2]].
    cbn [List.length repeat].
    apply (members_decode_cons (dynamic c, Coder_decode c) x bs);
      [exact (in_domain_not_null _ _ Hx) | | exact IH1].
    cbn [fst snd]. apply Hc; assumption.
Qed.

Lemma tuple_members (cs : list Coder) :
  Forall reads_back cs ->
  forall vs mbs,
    List.length cs = List.length vs ->
    forallb (fun b : bool => b) (zipWith (fun c x => in_domain c x) cs vs) = true ->
    mapM member_bytes (zipWith (fun c x => (dynamic c, abi_bytes 32 c x)) cs vs) = Ok mbs ->
    Forall (fun m => Z.of_nat (List.length (snd m)) < 2 ^ 256) mbs ->
    members_decode (map (fun c => (dynamic c, Coder_decode c)) cs) vs mbs
    /\ (existsb dynamic cs = false -> Forall (fun m => fst m = false) mbs).
Proof.
  induction 1 as [|c cs Hc _ IH]; intros [|x vs] mbs Hl Hdom Hm Hb;
    try discriminate; cbn [zipWith mapM] in Hm.
  - apply Ok_inj in Hm as <-. split; constructor.
  - cbn [zipWith forallb] in Hdom. apply andb_true_iff in Hdom as [Hx Hvs].
    unfold member_bytes at 1 in Hm. cbn [fst snd] in Hm.
    destruct (abi_bytes 32 c x) as [bs|e] eqn:Ex; cbn [bind] in Hm; [|discriminate].
    destruct (mapM member_bytes _) as [mbs'|e] eqn:Em; cbn [bind] in Hm; [|discriminate].
    apply Ok_inj in Hm as <-. inversion Hb as [|? ? Hb1 Hb2]; subst.
    cbn [List.length] in Hl. injection Hl as Hl.
    destruct (IH vs mbs' Hl Hvs Em Hb2) as [IH1 IH2].
    split.
    + cbn [map].
      apply (members_decode_cons (dynamic c, Coder_decode c) x bs);
        [exact (in_domain_not_null _ _ Hx) | | exact IH1].
      cbn [fst snd]. apply Hc; assumption.
    + cbn [existsb]. intros Hs. apply orb_false_iff in Hs as [Hs1 Hs2].
      constructor; [exact Hs1 | exact (IH2 Hs2)].
Qed.

Lemma members_bound (mbs : list (bool * list byte)) :
  Z.of_nat (head_length 32 mbs + List.length (tail_bytes mbs)) < 2 ^ 256 ->
  Forall (fun m => Z.of_nat (List.length (snd m)) < 2 ^ 256) mbs.
Proof.
  intros Hb. eapply Forall_impl; [|apply member_bytes_le].
  cbn beta. intros m Hm. lia.
Qed.

Lemma coerce_none (r : Reader) (ty : string) (v : Value) :
  reader_coerceFunc r = None -> coerce r ty v = v.
Proof. unfold coerce. intros ->. reflexivity. Qed.

Lemma Coder_decode_abi_bytes (c : Coder) : reads_back c.
Proof.
  induction c as [n|n|n|n|c len n IH|cs n IH|n|size signed n|size n]
    using Coder_induction; intros v bs Hdom Hbs Hlt r pre post Hd Ho Hw Hc;
    cbn [abi_bytes] in Hbs; cbn [Coder_decode dynamic].
  - (* address *)
    destruct v; try discriminate. cbn [in_domain] in Hdom. rewrite Hdom in Hbs.
    apply Ok_inj in Hbs as <-. apply Nat.eqb_eq in Hdom.
    rewrite (readWord_at r pre _ post Hd Ho Hw)
      by (unfold zeros; rewrite length_app, repeat_length, Hdom; reflexivity).
    cbn [bind fst snd]. rewrite Hw, coerce_none by exact Hc.
    change (32 - 20)%nat with (List.length (zeros 12)).
    rewrite firstn_prefix, skipn_prefix. cbn [all_zero zeros repeat forallb Byte.eqb].
    exists 32%nat. split; [reflexivity|]. intros _.
    rewrite length_app, Hdom. reflexivity.
  - (* bool *)
    destruct v; try discriminate. apply Ok_inj in Hbs as <-.
    rewrite (readWord_at r pre _ post Hd Ho Hw) by apply be_bytes_length.
    cbn [bind fst snd]. rewrite coerce_none by exact Hc.
    rewrite be_value_word by (destruct b; lia).
    exists 32%nat. split; [destruct b; reflexivity|]. intros _.
    rewrite be_bytes_length. reflexivity.
  - (* string *)
    destruct v; try discriminate. cbn [in_domain] in Hdom. apply Z.ltb_lt in Hdom.
    cbv zeta in Hbs. apply Ok_inj in Hbs as <-.
    set (sb := list_byte_of_string s) in *.
    set (word := be_bytes 32 (Z.of_nat (List.length sb))) in *.
    assert (Hwl : List.length word = 32%nat) by apply be_bytes_length.
    rewrite (readWord_at r pre word (padded sb 32 ++ post))
      by (try assumption; rewrite Hd, <- app_assoc; reflexivity).
    cbn [bind fst snd]. subst word. rewrite be_value_word by lia.
    set (word := be_bytes 32 (Z.of_nat (List.length sb))) in *.
    rewrite (readBytes_at (advance r 32) (pre ++ word) sb post);
      [| cbn [advance data]; rewrite Hd, <- !app_assoc; reflexivity
       | cbn [advance offset]; rewrite Ho, length_app, Hwl; reflexivity
       | exact Hw ].
    cbn [bind fst snd]. rewrite coerce_none by exact Hc. rewrite advance_advance.
    subst sb. rewrite string_of_list_byte_of_string.
    eexists. split; [reflexivity | discriminate].
  - (* bytes *)
    destruct v; try discriminate. cbn [in_domain] in Hdom. apply Z.ltb_lt in Hdom.
    apply Ok_inj in Hbs as <-.
    set (word := be_bytes 32 (Z.of_nat (List.length bs0))) in *.
    assert (Hwl : List.length word = 32%nat) by apply be_bytes_length.
    rewrite (readWord_at r pre word (padded bs0 32 ++ post))
      by (try assumption; rewrite Hd, <- app_assoc; reflexivity).
    cbn [bind fst snd]. subst word. rewrite be_value_word by lia.
    set (word := be_bytes 32 (Z.of_nat (List.length bs0))) in *.
    rewrite (readBytes_at (advance r 32) (pre ++ word) bs0 post);
      [| cbn [advance data]; rewrite Hd, <- !app_assoc; reflexivity
       | cbn [advance offset]; rewrite Ho, length_app, Hwl; reflexivity
       | exact Hw ].
    cbn [bind fst snd]. rewrite coerce_none by exact Hc. rewrite advance_advance.
    eexists. split; [reflexivity | discriminate].
  - (* array *)
    destruct v; try discriminate. cbn [in_domain] in Hdom.
    apply andb_true_iff in Hdom as [Hlen Hvs].
    destruct (len =? -1) eqn:Edyn.
    + apply Z.ltb_lt in Hlen.
      destruct (pack_bytes 32 _) as [body|e] eqn:Hp; cbn [bind] in Hbs; [|discriminate].
      apply Ok_inj in Hbs as <-.
      destruct (pack_bytes_inv _ _ Hp) as (mbs & Hm & -> & Hbl).
      set (word := be_bytes 32 (Z.of_nat (List.length vs))) in *.
      assert (Hwl : List.length word = 32%nat) by apply be_bytes_length.
      rewrite length_app, Hwl in Hlt.
      destruct (array_members c vs IH mbs Hvs Hm) as [Hmd _];
        [apply members_bound; lia|].
      rewrite (readWord_at r pre word
                 ((head_bytes 32 (head_length 32 mbs) 0 mbs ++ tail_bytes mbs) ++ post))
        by (try assumption; rewrite Hd, <- !app_assoc; reflexivity).
      cbn [bind fst snd]. subst word. rewrite be_value_word, Nat2Z.id by lia.
      set (word := be_bytes 32 (Z.of_nat (List.length vs))) in *.
      rewrite (unpack_decodes _ vs mbs (advance r 32) (pre ++ word) post Hmd);
        [| lia
         | cbn [advance data]; rewrite Hd, <- !app_assoc; reflexivity
         | cbn [advance offset]; rewrite Ho, length_app, Hwl; reflexivity
         | exact Hw | exact Hc ].
      cbn [bind fst snd]. rewrite advance_advance.
      eexists. split; [reflexivity | discriminate].
    + apply Z.eqb_eq in Hlen. rewrite Hlen, Z.eqb_refl in Hbs.
      destruct (pack_bytes_inv _ _ Hbs) as (mbs & Hm & -> & Hbl).
      rewrite Hbl in Hlt.
      destruct (array_members c vs IH mbs Hvs Hm) as [Hmd Hst];
        [apply members_bound; lia|].
      assert ((len <? 0) = false) as -> by (apply Z.ltb_ge; lia).
      rewrite <- Hlen, Nat2Z.id.
      rewrite (unpack_decodes _ vs mbs r pre post Hmd) by assumption.
      cbn [bind fst snd].
      eexists. split; [reflexivity|]. cbn [orb]. intros Hs.
      rewrite Hs in Hst. rewrite Hbl, (tail_bytes_static mbs Hst). cbn. lia.
  - (* tuple *)
    destruct v; try discriminate. cbn [in_domain] in Hdom.
    apply andb_true_iff in Hdom as [Hlen Hvs].
    rewrite Hlen in Hbs. apply Nat.eqb_eq in Hlen.
    destruct (pack_bytes_inv _ _ Hbs) as (mbs & Hm & -> & Hbl).
    rewrite Hbl in Hlt.
    destruct (tuple_members cs IH vs mbs Hlen Hvs Hm) as [Hmd Hst];
      [apply members_bound; lia|].
    rewrite (unpack_decodes _ vs mbs r pre post Hmd) by assumption.
    cbn [bind fst snd].
    eexists. split; [reflexivity|]. intros Hs.
    rewrite Hbl, (tail_bytes_static mbs (Hst Hs)). cbn. lia.
  - (* null *)
    discriminate.
  - (* number *)
    destruct v, size; try discriminate. cbn [in_domain] in Hdom.
    apply andb_true_iff in Hdom as [Hsz Hr]. apply andb_true_iff in Hsz as [Hs1 Hs2].
    apply Z.leb_le in Hs1, Hs2. rewrite Hr in Hbs. apply Ok_inj in Hbs as <-.
    rewrite (readWord_at r pre _ post Hd Ho Hw) by apply be_bytes_length.
    cbn [bind fst snd]. rewrite coerce_none by exact Hc.
    rewrite number_of_word_be_bytes by (try assumption; lia).
    exists 32%nat. split; [reflexivity|]. intros _.
    rewrite be_bytes_length. reflexivity.
  - (* fixed bytes *)
    destruct v, size; try discriminate. cbn [in_domain] in Hdom.
    apply andb_true_iff in Hdom as [Hsz Hs2]. apply andb_true_iff in Hsz as [Hl Hs1].
    apply Z.leb_le in Hs1, Hs2. apply Z.eqb_eq in Hl.
    cbn [js_eq] in Hbs. rewrite <- Hl, Z.eqb_refl in Hbs. apply Ok_inj in Hbs as <-.
    assert (Hpl : List.length (padded bs0 32) = 32%nat)
      by (rewrite padded_length; apply round_up_word; lia).
    rewrite (readWord_at r pre _ post Hd Ho Hw Hpl).
    cbn [bind fst snd]. rewrite coerce_none by exact Hc.
    rewrite <- Hl, Nat2Z.id. unfold padded at 1. rewrite firstn_prefix.
    exists 32%nat. split; [reflexivity|]. intros _. symmetry. exact Hpl.
Qed.

(** * The synthetic tuple *)

Lemma zipWith_combine {A B C : Type} (f : A -> B -> C) (l : list A) (l' : list B) :
  zipWith f l l' = map (fun ab => f (fst ab) (snd ab)) (combine l l').
Proof.
  revert l'; induction l as [|a l IH]; intros [|b l']; cbn; try reflexivity.
  rewrite IH. reflexivity.
Qed.

Lemma encoding_abi_bytes (c : Coder) (v : Value) : encoding c v = abi_bytes 32 c v.
Proof. apply Coder_encode_finalize. Qed.

Lemma members_decode_combine (coders : list Coder) :
  forall (values : list Value) (bss : list (list byte)),
    Forall2 (fun cv bs =>
               snd cv <> VNull
               /\ decodes (dynamic (fst cv)) (Coder_decode (fst cv)) (snd cv) bs)
            (combine coders values) bss ->
    List.length values = List.length coders ->
    members_decode (map (fun c => (dynamic c, Coder_decode c)) coders) values
                   (combine (map dynamic coders) bss).
Proof.
  induction coders as [|c coders IH]; intros [|v values] bss H Hl; try discriminate.
  - constructor.
  - cbn [combine] in H. inversion H as [|? bs ? bss' [Hv Hd] Hrest]; subst.
    cbn [map combine].
    apply (members_decode_cons (dynamic c, Coder_decode c) v bs); [exact Hv | exact Hd |].
    apply IH; [exact Hrest|]. cbn in Hl. lia.
Qed.

(** C6: where the types resolve, [encode] is the encoding of the value list
    by the tuple coder of the resolved coders, named ["_"]: the head/tail
    layout of what coder [i] writes for value [i], for each [i] in order.
    [decode] is the decoding by the tuple coder built the same way: from that
    layout of the bytes of the members it reads value [i] with coder [i],
    whenever coder [i] reads value [i] back from its own bytes. *)
Theorem encode_decode_synthetic_tuple (fromString : string -> result ParamType)
    (self : AbiCoder) (types : list TypeArg) (values : list Value) (coders : list Coder) :
  getCoders fromString types = Ok coders ->
  List.length values = List.length types ->
  encode fromString self types values = encoding (TupleCoder coders "_") (VList values)
  /\ encode fromString self types values
     = pack_bytes 32
         (map (fun cv => (dynamic (fst cv), encoding (fst cv) (snd cv)))
              (combine coders values))
  /\ (forall d,
         decode fromString self types d
         = (res <- Coder_decode (TupleCoder coders "_")
                     (Reader_new d 32 (coerceFunc self)) ;;
            Ok (fst res)))
  /\ (coerceFunc self = None ->
      forall bss,
        Forall2 (fun cv bs =>
                   snd cv <> VNull
                   /\ decodes (dynamic (fst cv)) (Coder_decode (fst cv)) (snd cv) bs)
                (combine coders values) bss ->
        Z.of_nat (List.length (layout 32 (combine (map dynamic coders) bss))) < 2 ^ 256 ->
        decode fromString self types (layout 32 (combine (map dynamic coders) bss))
        = Ok (VList values)).
Proof.
  intros Hc Hl.
  assert (Hlc : List.length coders = List.length values)
    by (rewrite (mapM_length _ _ _ Hc); symmetry; exact Hl).
  assert (He : encode fromString self types values
               = encoding (TupleCoder coders "_") (VList values)).
  { unfold encode, encoding. rewrite Hc, Hl, Nat.eqb_refl. reflexivity. }
  split; [exact He|]. split; [|split].
  - rewrite He, encoding_abi_bytes. cbn [abi_bytes].
    rewrite Hlc, Nat.eqb_refl, zipWith_combine. f_equal.
    apply map_ext. intros [c v]. cbn [fst snd]. rewrite encoding_abi_bytes. reflexivity.
  - intros d. unfold decode. rewrite Hc. reflexivity.
  - intros Hcf bss Hm Hlt. unfold decode. rewrite Hc. cbn [bind Coder_decode].
    pose proof (members_decode_combine coders values bss Hm (eq_sym Hlc)) as Hmd.
    unfold layout in *. rewrite length_app, head_bytes_length in Hlt.
    rewrite (unpack_decodes _ values _ (_getReader self _) [] [] Hmd Hlt).
    + reflexivity.
    + cbn [_getReader Reader_new data app]. rewrite app_nil_r. reflexivity.
    + reflexivity.
    + reflexivity.
    + exact Hcf.
Qed.

Lemma encode_decode_synthetic_tuple_witness :
  encode no_parser defaultAbiCoder
    [TypeParam (elementary "bool"); TypeParam (elementary "string")]
    [VBool true; VString "x"]
  = Ok (words [1; 64; 1] ++ padded [x78] 32)
  /\ decode no_parser defaultAbiCoder
       [TypeParam (elementary "bool"); TypeParam (elementary "string")]
       (words [1; 64; 1] ++ padded [x78] 32)
     = Ok (VList [VBool true; VString "x"]).
Proof.
  destruct (encode_decode_synthetic_tuple no_parser defaultAbiCoder
              [TypeParam (elementary "bool"); TypeParam (elementary "string")]
              [VBool true; VString "x"] [BooleanCoder ""; StringCoder ""]
              eq_refl eq_refl) as (_ & He & _ & Hd).
  split.
  - rewrite He. reflexivity.
  - apply (Hd eq_refl [words [1]; words [1] ++ padded [x78] 32]).
    + repeat constructor; cbn [fst snd]; try discriminate;
        apply Coder_decode_abi_bytes; reflexivity.
    + reflexivity.
Defined.

(** * A value of the domain is encoded *)

Lemma pack_bytes_total (ps : list (bool * result (list byte))) :
  Forall (fun p => exists bs, snd p = Ok bs) ps ->
  exists bs, pack_bytes 32 ps = Ok bs.
Proof.
  intros H. unfold pack_bytes.
  assert (Hm : exists mbs, mapM member_bytes ps = Ok mbs).
  { induction H as [|[dyn pr] ps [bs Hp] _ [mbs IH]]; [exists []; reflexivity|].
    cbn [snd] in Hp. subst pr. cbn [mapM]. unfold member_bytes at 1. cbn [fst snd bind].
    rewrite IH. eexists. reflexivity. }
  destruct Hm as [mbs ->]. eexists. reflexivity.
Qed.

Lemma abi_bytes_total (c : Coder) :
  forall v, in_domain c v = true -> exists bs, abi_bytes 32 c v = Ok bs.
Proof.
  induction c as [n|n|n|n|c len n IH|cs n IH|n|size signed n|size n]
    using Coder_induction; intros v Hdom; cbn [abi_bytes].
  - destruct v; try discriminate. cbn [in_domain] in Hdom. rewrite Hdom. eexists. reflexivity.
  - destruct v; try discriminate. eexists. reflexivity.
  - destruct v; try discriminate. eexists. reflexivity.
  - destruct v; try discriminate. eexists. reflexivity.
  - destruct v; try discriminate. cbn [in_domain] in Hdom.
    apply andb_true_iff in Hdom as [Hlen Hvs].
    assert (Hp : exists bs,
               pack_bytes 32 (map (fun x => (dynamic c, abi_bytes 32 c x)) vs) = Ok bs).
    { apply pack_bytes_total, Forall_map, Forall_forall. intros x Hx. cbn [snd].
      apply IH. rewrite forallb_forall in Hvs. apply Hvs, Hx. }
    destruct Hp as [body Hp]. destruct (len =? -1).
    + rewrite Hp. eexists. reflexivity.
    + rewrite Hlen. exists body. exact Hp.
  - destruct v; try discriminate. cbn [in_domain] in Hdom.
    apply andb_true_iff in Hdom as [Hlen Hvs]. rewrite Hlen.
    apply pack_bytes_total. clear Hlen n. revert vs Hvs.
    induction IH as [|c cs Hc _ IHcs]; intros [|x vs] Hvs; cbn [zipWith]; constructor.
    + cbn [snd]. apply Hc. cbn [zipWith forallb] in Hvs.
      apply andb_true_iff in Hvs as [Hx _]. exact Hx.
    + apply IHcs. cbn [zipWith forallb] in Hvs.
      apply andb_true_iff in Hvs as [_ Hvs]. exact Hvs.
  - discriminate.
  - destruct v, size; try discriminate. cbn [in_domain] in Hdom.
    apply andb_true_iff in Hdom as [_ Hr]. rewrite Hr. eexists. reflexivity.
  - destruct v, size; try discriminate. cbn [in_domain] in Hdom.
    apply andb_true_iff in Hdom as [Hsz _]. apply andb_true_iff in Hsz as [Hl _].
    apply Z.eqb_eq in Hl. cbn [js_eq]. rewrite <- Hl, Z.eqb_refl. eexists. reflexivity.
Qed.

(** C1: the values of the domains of their types are encoded, and decoding
    the bytes of the encoding without a coercion hook gives the values back;
    the bytes are fewer than 2^256, the largest offset a word holds. The
    empty type, whose decoding yields no value, has no value in its domain. *)
Theorem decode_encode_round_trip (fromString : string -> result ParamType)
    (self : AbiCoder) (types : list TypeArg) (values : list Value) (coders : list Coder) :
  coerceFunc self = None ->
  getCoders fromString types = Ok coders ->
  List.length values = List.length types ->
  forallb (fun b : bool => b) (zipWith in_domain coders values) = true ->
  exists d,
    encode fromString self types values = Ok d
    /\ (Z.of_nat (List.length d) < 2 ^ 256 ->
        decode fromString self types d = Ok (VList values)).
Proof.
  intros Hcf Hc Hl Hv.
  assert (Hdom : in_domain (TupleCoder coders "_") (VList values) = true).
  { cbn [in_domain]. rewrite (mapM_length _ _ _ Hc), <- Hl, Nat.eqb_refl. exact Hv. }
  destruct (abi_bytes_total _ _ Hdom) as [d Hd].
  exists d. split; [rewrite (encode_abi_bytes _ _ _ _ _ Hc (eq_sym Hl)); exact Hd|].
  intros Hlt. unfold decode. rewrite Hc. cbn [bind].
  destruct (Coder_decode_abi_bytes _ _ _ Hdom Hd Hlt (_getReader self d) [] [])
    as (k & -> & _); try reflexivity.
  - cbn [_getReader Reader_new data app]. rewrite app_nil_r. reflexivity.
  - cbn [_getReader Reader_new reader_coerceFunc]. exact Hcf.
Qed.

Lemma decode_encode_round_trip_witness :
  exists d,
    encode_default
      [elementary "int8"; elementary "string";
       array_of "bytes2[]" (elementary "bytes2") (-1)]
      [VNumber (-128); VString "abc"; VList [VBytes [x01; x02]; VBytes [x03; x04]]]
    = Ok d
    /\ decode_default
         [elementary "int8"; elementary "string";
          array_of "bytes2[]" (elementary "bytes2") (-1)] d
       = Ok (VList [VNumber (-128); VString "abc";
                    VList [VBytes [x01; x02]; VBytes [x03; x04]]]).
Proof.
  destruct (decode_encode_round_trip no_parser defaultAbiCoder
              (map TypeParam [elementary "int8"; elementary "string";
                              array_of "bytes2[]" (elementary "bytes2") (-1)])
              [VNumber (-128); VString "abc"; VList [VBytes [x01; x02]; VBytes [x03; x04]]]
              [NumberCoder (JNum 1) true ""; StringCoder "";
               ArrayCoder (FixedBytesCoder (JNum 2) "") (-1) ""]
              eq_refl eq_refl eq_refl eq_refl) as (d & He & Hd).
  exists d. split; [exact He|]. apply Hd.
  vm_compute in He. apply Ok_inj in He. subst d. reflexivity.
Defined.

(** * The scenarios of the specification, run on the model *)

Example scenario_scalar :
  encode_default [elementary "uint256"] [VNumber 1] = Ok (zeros 31 ++ [x01]).
Proof. reflexivity. Qed.

Example scenario_boolean :
  encode_default [elementary "bool"] [VBool true] = Ok (zeros 31 ++ [x01])
  /\ encode_default [elementary "bool"] [VBool false] = Ok (zeros 32).
Proof. split; reflexivity. Qed.

Example scenario_boundary :
  (exists d, encode_default [elementary "uint8"] [VNumber 255] = Ok d)
  /\ encode_default [elementary "uint8"] [VNumber 256] = Err NUMERIC_RANGE
  /\ encode_default [elementary "uint8"] [VNumber (-1)] = Err NUMERIC_RANGE
  /\ (d <- encode_default [elementary "int8"] [VNumber (-128)] ;;
      decode_default [elementary "int8"] d) = Ok (VList [VNumber (-128)]).
Proof. repeat split; try reflexivity. eexists. reflexivity. Qed.

(** The head of the synthetic tuple holds the offset of the string, one word
    before its length. *)
Example scenario_dynamic_scalar :
  encode_default [elementary "string"] [VString "abc"]
  = Ok (words [32; 3] ++ padded [x61; x62; x63] 32).
Proof. reflexivity. Qed.

Example scenario_dynamic_array :
  encode_default [array_of "uint256[]" (elementary "uint256") (-1)]
    [VList [VNumber 1; VNumber 2]]
  = Ok (words [32; 2; 1; 2]).
Proof. reflexivity. Qed.

Example scenario_mixed_tuple :
  encode_default [elementary "uint8"; elementary "string"] [VNumber 7; VString "x"]
  = Ok (words [7; 64; 1] ++ padded [x78] 32).
Proof. reflexivity. Qed.

(** The empty type is written as no byte and read as no value. *)
Example scenario_empty_type :
  encode_default [elementary ""] [VNull] = Ok []
  /\ decode_default [elementary ""] [] = Ok (VList [])
  /\ decode_default [elementary "bool"; elementary ""; elementary "bool"] (words [1; 0])
     = Ok (VList [VBool true; VBool false]).
Proof. repeat split; reflexivity. Qed.

(** An offset is counted from the start of the composite that holds it: the
    strings of a nested array of strings, from the start of its elements. *)
Example scenario_nested_offsets :
  encode_default [elementary "bool"; array_of "string[]" (elementary "string") (-1)]
    [VBool true; VList [VString "a"; VString "b"]]
  = Ok (words [1; 64; 2; 64; 128; 1] ++ padded [x61] 32
        ++ words [1] ++ padded [x62] 32).
Proof. reflexivity. Qed.

Lemma Ok_inj_err {A : Type} (e e' : Error) : @Err A e = Err e' -> e = e'.
Proof. congruence. Qed.

(** * Further properties of the resolution *)

Lemma ParamType_induction (P : ParamType -> Prop) :
  (forall n t b len children comps,
      (forall child, children = Some child -> P child) ->
      (forall l, comps = Some l -> Forall P l) ->
      P (mkParamType n t b len children comps)) ->
  forall p, P p.
Proof.
  intros H. fix IH 1. intros [n t b len children comps]. apply H.
  - destruct children as [child|]; intros child' Heq; [|discriminate].
    injection Heq as <-. apply IH.
  - destruct comps as [l|]; intros l' Heq; [|discriminate].
    injection Heq as <-. induction l as [|q l IHl]; constructor; [apply IH | exact IHl].
Qed.

Lemma mapM_Forall2 {A B : Type} (f : A -> result B) (l : list A) (l' : list B) :
  mapM f l = Ok l' <-> Forall2 (fun a b => f a = Ok b) l l'.
Proof.
  revert l'; induction l as [|a l IH]; intros l'; cbn [mapM].
  - split.
    + intros H. apply Ok_inj in H as <-. constructor.
    + intros H. inversion H. reflexivity.
  - split.
    + intros H. destruct (f a) as [b|e] eqn:Ea; cbn [bind] in H; [|discriminate].
      destruct (mapM f l) as [bs|e] eqn:El; cbn [bind] in H; [|discriminate].
      apply Ok_inj in H as <-. constructor; [exact Ea | apply IH; reflexivity].
    + intros H. inversion H as [|? b ? bs Ha Hl]; subst.
      rewrite Ha. cbn [bind]. apply IH in Hl. rewrite Hl. reflexivity.
Qed.

Lemma mapM_first_failure {A B : Type} (f : A -> result B) (l1 l2 : list A) (a : A)
    (e : Error) :
  Forall (fun x => exists b, f x = Ok b) l1 ->
  f a = Err e ->
  mapM f (l1 ++ a :: l2) = Err e.
Proof.
  intros H Ha. induction H as [|x l1 [b Hx] _ IH]; cbn [app mapM].
  - rewrite Ha. reflexivity.
  - rewrite Hx. cbn [bind]. rewrite IH. reflexivity.
Qed.

Lemma mapM_failure_inv {A B : Type} (f : A -> result B) (l : list A) (e : Error) :
  mapM f l = Err e ->
  exists l1 a l2,
    l = l1 ++ a :: l2 /\ Forall (fun x => exists b, f x = Ok b) l1 /\ f a = Err e.
Proof.
  induction l as [|x l IH]; cbn [mapM]; intros H; [discriminate|].
  destruct (f x) as [b|e'] eqn:Ex; cbn [bind] in H.
  - destruct (mapM f l) as [bs|e'] eqn:El; cbn [bind] in H; [discriminate|].
    destruct (IH H) as (l1 & a & l2 & -> & Hl1 & Ha).
    exists (x :: l1), a, l2. split; [reflexivity|]. split; [|exact Ha].
    constructor; [exists b; exact Ex | exact Hl1].
  - exists [], x, l. split; [reflexivity|]. split; [constructor | congruence].
Qed.

Lemma named_base_kind_cases (b : string) :
  named_base_kind b = true ->
  b = "address"%string \/ b = "bool"%string \/ b = "string"%string \/ b = "bytes"%string
  \/ b = "array"%string \/ b = "tuple"%string \/ b = ""%string.
Proof.
  unfold named_base_kind. cbn [existsb]. rewrite !orb_true_iff, !String.eqb_eq. intuition discriminate.
Qed.


(** X1: whatever [_getCoder] raises is either the [TypeError] of an array
    descriptor without [arrayChildren], or an invalid argument with one of
    its four messages. *)
Theorem getCoder_failure_kinds (p : ParamType) (e : Error) :
  _getCoder p = Err e ->
  (e = TypeError /\ arrays_complete p = false)
  \/ (exists message params,
         e = INVALID_ARGUMENT message params /\ In message resolution_messages).
Proof.
  revert e. induction p as [n t b len children comps IHc IHl] using ParamType_induction.
  intros e H.
  destruct (named_base_kind b) eqn:Hk.
  - apply named_base_kind_cases in Hk.
    destruct Hk as [-> | [-> | [-> | [-> | [-> | [-> | ->]]]]]];
      cbn [_getCoder String.eqb Ascii.eqb Bool.eqb] in H; try discriminate.
    + (* array *)
      cbn [arrays_complete String.eqb Ascii.eqb Bool.eqb].
      destruct children as [child|].
      * destruct (_getCoder child) as [c|e'] eqn:Ec; cbn [bind] in H; [discriminate|].
        apply Ok_inj_err in H. subst e'. exact (IHc child eq_refl e Ec).
      * left. split; [congruence | reflexivity].
    + (* tuple *)
      cbn [arrays_complete String.eqb Ascii.eqb Bool.eqb].
      destruct comps as [l|]; [|discriminate].
      destruct (mapM _getCoder l) as [cs|e'] eqn:El; cbn [bind] in H; [discriminate|].
      apply Ok_inj_err in H. subst e'.
      destruct (mapM_failure_inv _ _ _ El) as (l1 & q & l2 & -> & _ & Hq).
      specialize (IHl _ eq_refl). apply Forall_app in IHl as [_ IHl].
      inversion IHl as [|? ? Hqq _]; subst.
      destruct (Hqq e Hq) as [[-> Hf] | Hm]; [left | right; exact Hm].
      split; [reflexivity|]. rewrite forallb_app. cbn [forallb].
      rewrite Hf, andb_false_r. reflexivity.
  - right. rewrite getCoder_by_spelling in H by exact Hk. cbn [type name] in H.
    destruct (paramTypeNumber t) as [[m1 m2]|] eqn:En.
    + apply paramTypeNumber_inv in En as (Hpre & _ & _). cbv zeta in H.
      destruct (js_eq _ 0 || js_gt _ 256 || js_mod_ne0 _ 8); [|discriminate].
      apply Ok_inj_err in H. subst e. eexists _, _. split; [reflexivity|].
      destruct Hpre as [-> | ->]; cbn; auto.
    + destruct (paramTypeBytes t) as [m1|] eqn:Eb.
      * cbv zeta in H. destruct (js_eq _ 0 || js_gt _ 32); [|discriminate].
        apply Ok_inj_err in H. subst e. eexists _, _. split; [reflexivity|]. cbn; auto.
      * apply Ok_inj_err in H. subst e. eexists _, _. split; [reflexivity|]. cbn; auto.
Qed.

Lemma getCoder_failure_kinds_witness :
  (TypeError = TypeError
   /\ arrays_complete (tuple_of "tuple" [mkParamType "" "bool[]" "array" (-1) None None])
      = false)
  \/ (exists message params,
         TypeError = INVALID_ARGUMENT message params /\ In message resolution_messages).
Proof.
  apply (getCoder_failure_kinds
           (tuple_of "tuple" [mkParamType "" "bool[]" "array" (-1) None None]) TypeError).
  reflexivity.
Defined.

(** X2: in a coder that [_getCoder] returns, at any depth, an integer coder
    has between 1 and 32 bytes and a fixed-size byte-array coder a size
    between 1 and 32, the size [NaN] of the bare spelling [bytes] apart. *)
Theorem getCoder_widths_in_range (p : ParamType) (c : Coder) :
  _getCoder p = Ok c -> widths_in_range c = true.
Proof.
  revert c. induction p as [n t b len children comps IHc IHl] using ParamType_induction.
  intros c H.
  destruct (named_base_kind b) eqn:Hk.
  - apply named_base_kind_cases in Hk.
    destruct Hk as [-> | [-> | [-> | [-> | [-> | [-> | ->]]]]]];
      cbn [_getCoder String.eqb Ascii.eqb Bool.eqb] in H;
      try (apply Ok_inj in H as <-; reflexivity).
    + destruct children as [child|]; [|discriminate].
      destruct (_getCoder child) as [c'|e] eqn:Ec; cbn [bind] in H; [|discriminate].
      apply Ok_inj in H as <-. cbn [widths_in_range]. exact (IHc child eq_refl c' Ec).
    + destruct comps as [l|]; [|apply Ok_inj in H as <-; reflexivity].
      destruct (mapM _getCoder l) as [cs|e] eqn:El; cbn [bind] in H; [|discriminate].
      apply Ok_inj in H as <-. cbn [widths_in_range].
      apply mapM_Forall2 in El. specialize (IHl l eq_refl).
      induction El as [|q c' l cs Hq _ IH]; [reflexivity|].
      inversion IHl as [|? ? Hqq Hl]; subst. cbn [forallb].
      rewrite (Hqq c' Hq), (IH Hl). reflexivity.
  - rewrite getCoder_by_spelling in H by exact Hk. cbn [type name] in H.
    destruct (paramTypeNumber t) as [[m1 m2]|] eqn:En.
    + apply paramTypeNumber_inv in En as (_ & Hd & _). cbv zeta in H.
      rewrite (parseInt_suffix m2 Hd) in H.
      pose proof (bit_length_test (bit_width m2) (bit_width_nonneg m2 Hd)) as Ht.
      destruct (js_eq _ 0 || js_gt _ 256 || js_mod_ne0 _ 8); [discriminate|].
      apply Ok_inj in H as <-. destruct Ht as [Ht _]. specialize (Ht eq_refl).
      cbn [js_div widths_in_range]. apply andb_true_iff.
      pose proof (Z.div_mod (bit_width m2) 8 ltac:(lia)) as Hdm.
      split; apply Z.leb_le; lia.
    + destruct (paramTypeBytes t) as [m1|] eqn:Eb; [|discriminate].
      apply paramTypeBytes_inv in Eb as (Hd & _). cbv zeta in H.
      destruct m1 as [|ch m1].
      * cbn in H. apply Ok_inj in H as <-. reflexivity.
      * rewrite parseInt_digits in H by (try assumption; discriminate).
        pose proof (decimal_value_nonneg _ Hd) as H0.
        cbn [js_eq js_gt] in H.
        destruct (decimal_value (String ch m1) =? 0) eqn:E0; [discriminate|].
        destruct (32 <? decimal_value (String ch m1)) eqn:E1; [discriminate|].
        cbn [orb] in H. apply Ok_inj in H as <-. cbn [widths_in_range].
        apply Z.eqb_neq in E0. apply Z.ltb_ge in E1.
        apply andb_true_iff. split; apply Z.leb_le; lia.
Qed.

Lemma getCoder_widths_in_range_witness :
  widths_in_range
    (TupleCoder [ArrayCoder (NumberCoder (JNum 32) false "") (-1) "";
                 FixedBytesCoder (JNum 4) ""] "") = true.
Proof.
  apply (getCoder_widths_in_range
           (tuple_of "tuple" [array_of "uint[]" (elementary "uint") (-1);
                              elementary "bytes4"])).
  reflexivity.
Defined.

(** X3: the coder that [_getCoder] returns carries the name of the
    descriptor. *)
Theorem getCoder_local_name (p : ParamType) (c : Coder) :
  _getCoder p = Ok c -> Coder_localName c = name p.
Proof.
  destruct p as [n t b len children comps]. intros H. cbn [name].
  destruct (named_base_kind b) eqn:Hk.
  - apply named_base_kind_cases in Hk.
    destruct Hk as [-> | [-> | [-> | [-> | [-> | [-> | ->]]]]]];
      cbn [_getCoder String.eqb Ascii.eqb Bool.eqb] in H;
      try (apply Ok_inj in H as <-; reflexivity).
    + destruct children as [child|]; [|discriminate].
      destruct (_getCoder child); cbn [bind] in H; [|discriminate].
      apply Ok_inj in H as <-. reflexivity.
    + destruct comps as [l|]; [|apply Ok_inj in H as <-; reflexivity].
      destruct (mapM _getCoder l); cbn [bind] in H; [|discriminate].
      apply Ok_inj in H as <-. reflexivity.
  - rewrite getCoder_by_spelling in H by exact Hk. cbn [type name] in H.
    destruct (paramTypeNumber t) as [[m1 m2]|].
    + cbv zeta in H. destruct (js_eq _ 0 || js_gt _ 256 || js_mod_ne0 _ 8); [discriminate|].
      apply Ok_inj in H as <-. reflexivity.
    + destruct (paramTypeBytes t) as [m1|]; [|discriminate].
      cbv zeta in H. destruct (js_eq _ 0 || js_gt _ 32); [discriminate|].
      apply Ok_inj in H as <-. reflexivity.
Qed.

Lemma getCoder_local_name_witness :
  Coder_localName (ArrayCoder (AddressCoder "") 3 "owners") = "owners"%string.
Proof.
  apply (getCoder_local_name
           (mkParamType "owners" "address[3]" "array" 3 (Some (elementary "address")) None)).
  reflexivity.
Defined.

(** X4: a tuple descriptor resolves exactly when each of its components
    does, to the tuple coder whose children are the coders of the
    components, one for each and in the same order. *)
Theorem getCoder_tuple_components (p : ParamType) (c : Coder) :
  baseType p = "tuple"%string ->
  _getCoder p = Ok c
  <-> exists cs,
        c = TupleCoder cs (name p)
        /\ Forall2 (fun component c' => _getCoder component = Ok c')
                   (components_or_empty p) cs.
Proof.
  destruct p as [n t b len children comps]. unfold components_or_empty.
  cbn [baseType name components]. intros ->.
  cbn [_getCoder String.eqb Ascii.eqb Bool.eqb]. destruct comps as [l|].
  - split.
    + intros H. destruct (mapM _getCoder l) as [cs|e] eqn:El; cbn [bind] in H; [|discriminate].
      apply Ok_inj in H as <-. exists cs. split; [reflexivity|]. apply mapM_Forall2, El.
    + intros (cs & -> & H). apply mapM_Forall2 in H. rewrite H. reflexivity.
  - split.
    + intros H. apply Ok_inj in H as <-. exists []. split; [reflexivity | constructor].
    + intros (cs & -> & H). inversion H. reflexivity.
Qed.

Lemma getCoder_tuple_components_witness :
  _getCoder (tuple_of "tuple" [elementary "bool"; elementary "int16"])
  = Ok (TupleCoder [BooleanCoder ""; NumberCoder (JNum 2) true ""] "").
Proof.
  apply (getCoder_tuple_components (tuple_of "tuple" [elementary "bool"; elementary "int16"]));
    [reflexivity|].
  eexists. split; [reflexivity|]. repeat constructor.
Defined.

(** X5: a tuple descriptor fails with the error of its first component that
    fails, whatever comes after it. *)
Theorem getCoder_tuple_first_failure (p : ParamType) (before after : list ParamType)
    (bad : ParamType) (e : Error) :
  baseType p = "tuple"%string ->
  components p = Some (before ++ bad :: after) ->
  Forall (fun component => exists c, _getCoder component = Ok c) before ->
  _getCoder bad = Err e ->
  _getCoder p = Err e.
Proof.
  destruct p as [n t b len children comps]. cbn [baseType components].
  intros -> -> Hb He. cbn [_getCoder String.eqb Ascii.eqb Bool.eqb].
  rewrite (mapM_first_failure _ _ _ _ _ Hb He). reflexivity.
Qed.

Lemma getCoder_tuple_first_failure_witness :
  _getCoder (tuple_of "tuple" [elementary "bool"; elementary "uint7"; elementary "bytes33"])
  = Err (INVALID_ARGUMENT "invalid uint bit length" (ArgParam "param" (elementary "uint7"))).
Proof.
  apply (getCoder_tuple_first_failure
           (tuple_of "tuple" [elementary "bool"; elementary "uint7"; elementary "bytes33"])
           [elementary "bool"] [elementary "bytes33"] (elementary "uint7"));
    try reflexivity.
  constructor; [eexists; reflexivity | constructor].
Defined.

(** X11: no spelling matches both expressions of [_getCoder], so the order
    in which they are tried decides nothing. *)
Theorem spelling_expressions_disjoint (s : string) :
  paramTypeNumber s = None \/ paramTypeBytes s = None.
Proof.
  destruct (paramTypeBytes s) as [m1|] eqn:Eb; [left | right; reflexivity].
  apply paramTypeBytes_inv in Eb as (_ & ->). reflexivity.
Qed.

(** X6: both expressions are anchored at the end: after [uint], [int] or
    [bytes], one character that is not a decimal digit makes the type
    invalid. *)
Theorem getCoder_trailing_characters (p : ParamType) (pre rest : string) :
  named_base_kind (baseType p) = false ->
  pre = "uint"%string \/ pre = "int"%string \/ pre = "bytes"%string ->
  type p = (pre ++ rest)%string ->
  all_digits rest = false ->
  _getCoder p = Err (INVALID_ARGUMENT "invalid type" (ArgType "type" (type p))).
Proof.
  intros Hk Hpre Hty Hd. apply getCoder_unmatched_spelling; [exact Hk | |]; rewrite Hty.
  - destruct Hpre as [-> | [-> | ->]]; unfold paramTypeNumber;
      cbn [strip_prefix String.append Ascii.eqb Bool.eqb]; rewrite ?Hd; reflexivity.
  - destruct Hpre as [-> | [-> | ->]]; unfold paramTypeBytes;
      cbn [strip_prefix String.append Ascii.eqb Bool.eqb]; rewrite ?Hd; reflexivity.
Qed.

Lemma getCoder_trailing_characters_witness :
  _getCoder (elementary "uint8 ")
  = Err (INVALID_ARGUMENT "invalid type" (ArgType "type" "uint8 "))
  /\ _getCoder (elementary "bytes4x")
     = Err (INVALID_ARGUMENT "invalid type" (ArgType "type" "bytes4x")).
Proof.
  split.
  - apply (getCoder_trailing_characters (elementary "uint8 ") "uint" "8 ");
      [reflexivity | left; reflexivity | reflexivity | reflexivity].
  - apply (getCoder_trailing_characters (elementary "bytes4x") "bytes" "4x");
      [reflexivity | right; right; reflexivity | reflexivity | reflexivity].
Defined.

(** X7: the coder tells where it comes from: a coder of a named kind from
    that base kind alone, an integer coder from a spelling [uint] or [int]
    with digits, of its signedness and width, a fixed-size byte-array coder
    from a spelling [bytes] with digits. *)
Theorem getCoder_coder_kind (p : ParamType) (c : Coder) :
  _getCoder p = Ok c ->
  match c with
  | AddressCoder _ => baseType p = "address"%string
  | BooleanCoder _ => baseType p = "bool"%string
  | StringCoder _ => baseType p = "string"%string
  | BytesCoder _ => baseType p = "bytes"%string
  | ArrayCoder c' len _ =>
      baseType p = "array"%string /\ len = arrayLength p
      /\ exists child, arrayChildren p = Some child /\ _getCoder child = Ok c'
  | TupleCoder _ _ => baseType p = "tuple"%string
  | NullCoder _ => baseType p = ""%string
  | NumberCoder size signed _ =>
      named_base_kind (baseType p) = false
      /\ exists d,
           all_digits d = true
           /\ type p = ((if signed then "int" else "uint") ++ d)%string
           /\ size = JNum (bit_width d / 8)
  | FixedBytesCoder size _ =>
      named_base_kind (baseType p) = false
      /\ exists d,
           all_digits d = true /\ type p = ("bytes" ++ d)%string /\ size = parseInt d
  end.
Proof.
  destruct p as [n t b len children comps]. intros H.
  cbn [baseType type arrayLength arrayChildren].
  destruct (named_base_kind b) eqn:Hk.
  - apply named_base_kind_cases in Hk.
    destruct Hk as [-> | [-> | [-> | [-> | [-> | [-> | ->]]]]]];
      cbn [_getCoder String.eqb Ascii.eqb Bool.eqb] in H;
      try (apply Ok_inj in H as <-; reflexivity).
    + destruct children as [child|]; [|discriminate].
      destruct (_getCoder child) as [c'|e] eqn:Ec; cbn [bind] in H; [|discriminate].
      apply Ok_inj in H as <-. repeat split. exists child. split; [reflexivity | exact Ec].
    + destruct comps as [l|]; [|apply Ok_inj in H as <-; reflexivity].
      destruct (mapM _getCoder l); cbn [bind] in H; [|discriminate].
      apply Ok_inj in H as <-. reflexivity.
  - rewrite getCoder_by_spelling in H by exact Hk. cbn [type name] in H.
    destruct (paramTypeNumber t) as [[m1 m2]|] eqn:En.
    + apply paramTypeNumber_inv in En as (Hpre & Hd & Hty). cbv zeta in H.
      rewrite (parseInt_suffix m2 Hd) in H.
      destruct (js_eq _ 0 || js_gt _ 256 || js_mod_ne0 _ 8); [discriminate|].
      apply Ok_inj in H as <-. split; [reflexivity|]. exists m2.
      split; [exact Hd|]. split; [|reflexivity].
      destruct Hpre as [-> | ->]; exact Hty.
    + destruct (paramTypeBytes t) as [m1|] eqn:Eb; [|discriminate].
      apply paramTypeBytes_inv in Eb as (Hd & Hty). cbv zeta in H.
      destruct (js_eq _ 0 || js_gt _ 32); [discriminate|].
      apply Ok_inj in H as <-. split; [reflexivity|]. exists m1. auto.
Qed.

Lemma getCoder_coder_kind_witness :
  named_base_kind (baseType (elementary "int24")) = false
  /\ exists d,
       all_digits d = true
       /\ type (elementary "int24") = ("int" ++ d)%string
       /\ JNum 3 = JNum (bit_width d / 8).
Proof.
  apply (getCoder_coder_kind (elementary "int24") (NumberCoder (JNum 3) true "")).
  reflexivity.
Defined.

(** X8: past the [switch], a coder depends on the spelling and the name of
    the descriptor only: two descriptors that share them resolve to the same
    coder. *)
Theorem getCoder_spelling_and_name_only (p q : ParamType) (c : Coder) :
  named_base_kind (baseType p) = false ->
  named_base_kind (baseType q) = false ->
  type q = type p ->
  name q = name p ->
  _getCoder p = Ok c ->
  _getCoder q = Ok c.
Proof.
  intros Hp Hq Hty Hn.
  rewrite (getCoder_by_spelling p Hp), (getCoder_by_spelling q Hq), Hty, Hn.
  destruct (paramTypeNumber (type p)) as [[m1 m2]|].
  - cbv zeta. destruct (js_eq _ 0 || js_gt _ 256 || js_mod_ne0 _ 8); [discriminate | trivial].
  - destruct (paramTypeBytes (type p)) as [m1|]; [|discriminate].
    cbv zeta. destruct (js_eq _ 0 || js_gt _ 32); [discriminate | trivial].
Qed.

Lemma getCoder_spelling_and_name_only_witness :
  _getCoder (mkParamType "amount" "uint128" "uint" 7 (Some (elementary "bool")) (Some []))
  = Ok (NumberCoder (JNum 16) false "amount").
Proof.
  apply (getCoder_spelling_and_name_only
           (mkParamType "amount" "uint128" "uint128" 0 None None)
           (mkParamType "amount" "uint128" "uint" 7 (Some (elementary "bool")) (Some [])));
    reflexivity.
Defined.

(** * Further properties of the entry points *)

(** X9: where a type of the list does not resolve, [encode], given as many
    values as types, and [decode] both fail with the error of the first such
    type, whatever the values and the bytes are. *)
Theorem encode_decode_unresolved_type (fromString : string -> result ParamType)
    (self : AbiCoder) (before after : list TypeArg) (bad : TypeArg) (e : Error) :
  Forall (fun t => exists c, resolveType fromString t = Ok c) before ->
  resolveType fromString bad = Err e ->
  (forall values,
      List.length values = List.length (before ++ bad :: after) ->
      encode fromString self (before ++ bad :: after) values = Err e)
  /\ (forall d, decode fromString self (before ++ bad :: after) d = Err e).
Proof.
  intros Hb He.
  assert (Hc : getCoders fromString (before ++ bad :: after) = Err e)
    by exact (mapM_first_failure _ _ _ _ _ Hb He).
  split.
  - intros values Hl. unfold encode. rewrite Hc, Hl, Nat.eqb_refl. reflexivity.
  - intros d. unfold decode. rewrite Hc. reflexivity.
Qed.

Lemma encode_decode_unresolved_type_witness :
  (forall values,
      List.length values = 2%nat ->
      encode no_parser defaultAbiCoder
        [TypeParam (elementary "bool"); TypeString "uint8"] values
      = Err (INVALID_ARGUMENT "invalid type" (ArgType "type" "uint8")))
  /\ (forall d,
         decode no_parser defaultAbiCoder
           [TypeParam (elementary "bool"); TypeString "uint8"] d
         = Err (INVALID_ARGUMENT "invalid type" (ArgType "type" "uint8"))).
Proof.
  apply (encode_decode_unresolved_type no_parser defaultAbiCoder
           [TypeParam (elementary "bool")] [] (TypeString "uint8")).
  - constructor; [eexists; reflexivity | constructor].
  - reflexivity.
Defined.

(** X10: [encode] returns bytes only for as many values as types, all of
    whose types resolve. *)
Theorem encode_success_requires (fromString : string -> result ParamType)
    (self : AbiCoder) (types : list TypeArg) (values : list Value) (d : list byte) :
  encode fromString self types values = Ok d ->
  List.length types = List.length values
  /\ exists coders,
       Forall2 (fun t c => resolveType fromString t = Ok c) types coders
       /\ List.length coders = List.length values.
Proof.
  intros H. destruct (getCoders_resolves _ _ _ _ _ H) as (coders & Hc & Hl).
  split; [exact Hl|]. exists coders. split.
  - apply mapM_Forall2. exact Hc.
  - rewrite (mapM_length _ _ _ Hc). exact Hl.
Qed.

Lemma encode_success_requires_witness :
  List.length [TypeParam (elementary "bool")] = List.length [VBool true]
  /\ exists coders,
       Forall2 (fun t c => resolveType no_parser t = Ok c)
               [TypeParam (elementary "bool")] coders
       /\ List.length coders = List.length [VBool true].
Proof.
  apply (encode_success_requires no_parser defaultAbiCoder
           [TypeParam (elementary "bool")] [VBool true] (words [1])).
  reflexivity.
Defined.
